(** * Gesture maze: the control loop of [maze_game.py]

    A shallow embedding of the game core of [maze_game.py]: the wall/circle
    collision test [DragRect.check_collision], the player [DragCircle], the
    module-level function [reset_game] and one iteration of the main loop
    (gesture handling, collision and finish checks, key handling).

    Modelling conventions.
    - Coordinates are Python ints: the maze layout is written with int
      literals, and the hand detector reports every landmark as a list
      [[x, y, z]] of pixel ints.  They are modelled as [Z]; [w // 2] is
      [Z.div].
    - Every use of [math.sqrt] in the program has the shape
      [math.sqrt(n) < b] with [n] a sum of two squares of ints and [b] an
      int.  The square root is taken over the reals, where the comparison
      is decided by [0 < b] and [n < b * b]; [sqrt_lt] is that test and
      [sqrt_lt_spec] relates it to [sqrt] on [R].
      The program computes the root in binary64 arithmetic
      ([sqrt_lt_binary64]): [n] is rounded to a double, its root is
      rounded again, and the double is compared with the int exactly.
      The two tests agree for [b <= 2 ^ 26] and [n < 2 ^ 1023]
      ([binary64_exact]): there [b * b] and every smaller [n] are doubles,
      the root of [b * b] is [b] itself, the root of [b * b - 1] lies
      more than half a unit in the last place below [b], and rounding is
      monotone.  The program's own radii are 30 and 30 + 40.  Beyond
      that range the tests can differ, and [math.sqrt] raises
      [OverflowError] from [n = 2 ^ 1024 - 2 ^ 970] on; statements that
      depend on the outcome of the comparison at an arbitrary radius are
      made within the range.
    - [circle.start_pos] and [circle.posCenter] start out as one list
      object and all walls share one default [size] list; no statement of
      the program updates a list in place ([posCenter] is only ever
      rebound), so values stand for the objects.
    - Module-level variables that the loop reads and writes are the fields
      of [Globals].  A variable that may be read before it was ever
      assigned is an [option]; reading [None] raises [NameError].
    - Camera capture, drawing and display have no effect on the variables
      modelled here and are left out, and with them the errors that these
      calls raise themselves.  [exn] has the two exceptions that the
      modelled statements raise on their own account, by reading an
      unbound name and by indexing past the end of a list. *)

From Stdlib Require Import ZArith List Bool Lia Permutation Reals Lra SpecFloat.
Import ListNotations.

#[local] Open Scope Z_scope.

(** ** Exceptions *)

(** The exceptions that the modelled statements raise on their own account:
    reading an unbound name and indexing past the end of a list.  The
    [OverflowError] of [math.sqrt] on an int beyond the double range and
    the errors of the camera, detector and drawing calls are outside the
    model. *)
Inductive exn : Set :=
| NameError
| IndexError.

Inductive result (A : Type) : Type :=
| Ok (a : A)
| Raise (e : exn).

Arguments Ok {A} a.
Arguments Raise {A} e.

Definition bind {A B : Type} (m : result A) (k : A -> result B) : result B :=
  match m with
  | Ok a => k a
  | Raise e => Raise e
  end.

Definition result_map {A B : Type} (f : A -> B) (m : result A) : result B :=
  bind m (fun a => Ok (f a)).

Declare Scope result_scope.
Delimit Scope result_scope with result.
Notation "x <- m ;; k" := (bind m (fun x => k))
  (at level 61, m at next level, right associativity) : result_scope.
#[local] Open Scope result_scope.

(** ** Values *)

(** A point [(x, y)]. *)
Definition Point : Set := (Z * Z)%type.

(** One entry [[x, y, z]] of a hand's [lmList]. *)
Definition Landmark : Set := (Z * Z * Z)%type.

(** [p[:2]] for a landmark [p]. *)
Definition xy (p : Landmark) : Point := (fst (fst p), snd (fst p)).

(** [l[i]] for a non-negative literal index. *)
Definition index {A : Type} (l : list A) (i : nat) : result A :=
  match nth_error l i with
  | Some a => Ok a
  | None => Raise IndexError
  end.

(** Reading a variable that may be unbound. *)
Definition read {A : Type} (v : option A) : result A :=
  match v with
  | Some a => Ok a
  | None => Raise NameError
  end.

(** [math.sqrt(n) < b]. *)
Definition sqrt_lt (n b : Z) : bool := (0 <? b) && (n <? b * b).

(** [(px - qx) ** 2 + (py - qy) ** 2]. *)
Definition sq_dist (p q : Point) : Z :=
  (fst p - fst q) ^ 2 + (snd p - snd q) ^ 2.

(** Euclidean distance of two points, over the reals. *)
Definition distance (p q : Point) : R :=
  sqrt ((IZR (fst p) - IZR (fst q)) ^ 2 + (IZR (snd p) - IZR (snd q)) ^ 2)%R.

(** ** Maze walls *)

Module DragRect.

Record t : Set := make { posCenter : Point; size : Z * Z }.

(** The point of the wall closest to [circle_center]. *)
Definition closest (self : t) (circle_center : Point) : Point :=
  let '(cx, cy) := posCenter self in
  let '(w, h) := size self in
  let closest_x := Z.max (cx - w / 2) (Z.min (fst circle_center) (cx + w / 2)) in
  let closest_y := Z.max (cy - h / 2) (Z.min (snd circle_center) (cy + h / 2)) in
  (closest_x, closest_y).

Definition check_collision (self : t) (circle_center : Point) (radius : Z) : bool :=
  let '(closest_x, closest_y) := closest self circle_center in
  sqrt_lt ((closest_x - fst circle_center) ^ 2 + (closest_y - snd circle_center) ^ 2)
          radius.

End DragRect.

(** ** The player circle *)

Module DragCircle.

Record t : Set := make
  { start_pos : Point; posCenter : Point; radius : Z; grabbed : bool }.

(** [DragCircle(posCenter)], with the default radius. *)
Definition init (posCenter : Point) : t := make posCenter posCenter 30 false.

Definition set_posCenter (self : t) (p : Point) : t :=
  make (start_pos self) p (radius self) (grabbed self).

Definition set_grabbed (self : t) (b : bool) : t :=
  make (start_pos self) (posCenter self) (radius self) b.

Definition update (self : t) (cursor : Landmark) : t :=
  if grabbed self then set_posCenter self (xy cursor) else self.

End DragCircle.

(** ** Module-level variables *)

Record Globals : Set := mkGlobals
  { rectList : list DragRect.t;
    circle : DragCircle.t;
    finish_pos : Point;
    finish_radius : Z;
    game_over : bool;
    game_won : bool;
    (** [(x1, y1)] and [(x2, y2)], bound together by the two assignments
        under [if len(lmList) >= 13]; [None] before the first of them. *)
    fingertips : option (Point * Point);
    (** [cursor]; [None] before its first assignment. *)
    cursor : option Landmark }.

Definition set_rectList (g : Globals) (l : list DragRect.t) : Globals :=
  mkGlobals l (circle g) (finish_pos g) (finish_radius g)
            (game_over g) (game_won g) (fingertips g) (cursor g).

Definition set_circle (g : Globals) (c : DragCircle.t) : Globals :=
  mkGlobals (rectList g) c (finish_pos g) (finish_radius g)
            (game_over g) (game_won g) (fingertips g) (cursor g).

Definition set_game_over (g : Globals) (b : bool) : Globals :=
  mkGlobals (rectList g) (circle g) (finish_pos g) (finish_radius g)
            b (game_won g) (fingertips g) (cursor g).

Definition set_game_won (g : Globals) (b : bool) : Globals :=
  mkGlobals (rectList g) (circle g) (finish_pos g) (finish_radius g)
            (game_over g) b (fingertips g) (cursor g).

Definition set_fingertips (g : Globals) (f : option (Point * Point)) : Globals :=
  mkGlobals (rectList g) (circle g) (finish_pos g) (finish_radius g)
            (game_over g) (game_won g) f (cursor g).

Definition set_cursor (g : Globals) (c : option Landmark) : Globals :=
  mkGlobals (rectList g) (circle g) (finish_pos g) (finish_radius g)
            (game_over g) (game_won g) (fingertips g) c.

(** [circle.grabbed = b]. *)
Definition set_grabbed (g : Globals) (b : bool) : Globals :=
  set_circle g (DragCircle.set_grabbed (circle g) b).

Definition rect_positions : list Point :=
  [ (200, 200); (400, 200); (600, 200); (800, 200); (1000, 200);
    (200, 400); (400, 400); (800, 400); (1000, 400);
    (200, 600); (600, 600); (1000, 600) ].

(** The variables as they stand when the main loop is entered. *)
Definition init : Globals :=
  {| rectList := map (fun pos => DragRect.make pos (100, 100)) rect_positions;
     circle := DragCircle.init (640, 360);
     finish_pos := (1100, 100);
     finish_radius := 40;
     game_over := false;
     game_won := false;
     fingertips := None;
     cursor := None |}.

(** ** [reset_game] *)

Definition reset_game (g : Globals) : Globals :=
  let g := set_game_over g false in
  let g := set_game_won g false in
  set_circle g (DragCircle.set_posCenter (circle g) (DragCircle.start_pos (circle g))).

(** ** One iteration of the main loop *)

(** What the detector returns: one [lmList] per detected hand. *)
Definition Hands : Set := list (list Landmark).

(** Gesture handling: the block under
    [if hands and not game_over and not game_won]. *)
Definition gesture (hands : Hands) (g : Globals) : result Globals :=
  match hands with
  | [] => Ok g
  | lmList :: _ =>
    if negb (game_over g) && negb (game_won g) then
      g <- (if (13 <=? length lmList)%nat then
              p8 <- index lmList 8 ;;
              p12 <- index lmList 12 ;;
              Ok (set_fingertips g (Some (xy p8, xy p12)))
            else Ok g) ;;
      tips <- read (fingertips g) ;;
      let '((x1, y1), (x2, y2)) := tips in
      g <- (if sqrt_lt ((x2 - x1) ^ 2 + (y2 - y1) ^ 2) 30 then
              c <- index lmList 8 ;;
              let g := set_cursor g (Some c) in
              if sqrt_lt (sq_dist (xy c) (DragCircle.posCenter (circle g)))
                         (DragCircle.radius (circle g))
              then Ok (set_grabbed g true)
              else Ok g
            else Ok (set_grabbed g false)) ;;
      if DragCircle.grabbed (circle g) then
        c <- read (cursor g) ;;
        Ok (set_circle g (DragCircle.update (circle g) c))
      else Ok g
    else Ok g
  end.

(** [for rect in rectList: if rect.check_collision(...): game_over = True]. *)
Definition wall_checks (g : Globals) : Globals :=
  fold_left
    (fun g rect =>
       if DragRect.check_collision rect (DragCircle.posCenter (circle g))
                                   (DragCircle.radius (circle g))
       then set_game_over g true
       else g)
    (rectList g) g.

(** The test of the finish check. *)
Definition at_finish (g : Globals) : bool :=
  sqrt_lt (sq_dist (DragCircle.posCenter (circle g)) (finish_pos g))
          (DragCircle.radius (circle g) + finish_radius g).

Definition finish_check (g : Globals) : Globals :=
  if at_finish g then set_game_won g true else g.

(** Collision and win/lose conditions. *)
Definition game_logic (g : Globals) : Globals :=
  finish_check (wall_checks g).

(** One frame up to the key handling: what the specification calls
    [update]. *)
Definition update (hands : Hands) (g : Globals) : result Globals :=
  g <- gesture hands g ;;
  Ok (game_logic g).

Inductive Key : Set :=
| KeyQ
| KeyR
| KeyOther.

Record Frame : Set := mkFrame { hands_of : Hands; key_of : Key }.

(** The main loop on the frames [fs]: the variables when the frames are
    used up or ['q'] was pressed, or the exception that ended the program. *)
Fixpoint main_loop (fs : list Frame) (g : Globals) : result Globals :=
  match fs with
  | [] => Ok g
  | f :: fs =>
    g <- update (hands_of f) g ;;
    match key_of f with
    | KeyQ => Ok g
    | KeyR => main_loop fs (reset_game g)
    | KeyOther => main_loop fs g
    end
  end.

(** The frames without a key press. *)
Fixpoint updates (hs : list Hands) (g : Globals) : result Globals :=
  match hs with
  | [] => Ok g
  | h :: hs => g <- update h g ;; updates hs g
  end.

(** ** Session status *)

(** The status that the loop displays: ["GAME OVER"] if [game_over], else
    ["YOU WIN"] if [game_won], else no message. *)
Inductive SessionStatus : Set :=
| Playing
| Lost
| Won.

Definition status (g : Globals) : SessionStatus :=
  if game_over g then Lost else if game_won g then Won else Playing.

(** A state of the variables that some run of the program reaches. *)
Definition reachable (g : Globals) : Prop :=
  exists fs, main_loop fs init = Ok g.

(** ** Gesture events *)

(** A pinching gesture: [math.sqrt((x2 - x1) ** 2 + (y2 - y1) ** 2) < 30]
    on landmarks 8 and 12. *)
Definition pinching (p8 p12 : Landmark) : bool :=
  sqrt_lt (sq_dist (xy p12) (xy p8)) 30.

(** The cursor is over the player circle. *)
Definition over_circle (c : Landmark) (g : Globals) : bool :=
  sqrt_lt (sq_dist (xy c) (DragCircle.posCenter (circle g)))
          (DragCircle.radius (circle g)).

(** A hand whose landmarks all sit at [p], [n] of them. *)
Definition hand_at (n : nat) (p : Point) : list Landmark :=
  repeat (fst p, snd p, 0) n.

(** Some wall of [rectList] collides with the player circle. *)
Definition collides (g : Globals) : bool :=
  existsb
    (fun rect =>
       DragRect.check_collision rect (DragCircle.posCenter (circle g))
                                (DragCircle.radius (circle g)))
    (rectList g).

(** The gesture handling of a hand with landmarks 8 and 12 present, while
    neither flag is set, in closed form (see [gesture_full]). *)
Definition grab_release (p8 p12 : Landmark) (g : Globals) : Globals :=
  let g := set_fingertips g (Some (xy p8, xy p12)) in
  if pinching p8 p12 then
    let g := set_cursor g (Some p8) in
    let g := if over_circle p8 g then set_grabbed g true else g in
    if DragCircle.grabbed (circle g)
    then set_circle g (DragCircle.set_posCenter (circle g) (xy p8))
    else g
  else set_grabbed g false.

(** The fixed part of the variables: the walls and the finish circle. *)
Definition layout (g : Globals) : list DragRect.t * Point * Z :=
  (rectList g, finish_pos g, finish_radius g).

(** Clamping [v] to the interval from [lo] to [hi], in the words of the
    specification: [v] itself when it lies in the interval, the nearer end
    otherwise. *)
Definition clamp_spec (lo hi v : Z) : Z :=
  if v <? lo then lo else if hi <? v then hi else v.

(** The corner of a wall in direction [(sx, sy)], each of them 1 or -1. *)
Definition corner (rect : DragRect.t) (sx sy : Z) : Point :=
  (fst (DragRect.posCenter rect) + sx * (fst (DragRect.size rect) / 2),
   snd (DragRect.posCenter rect) + sy * (snd (DragRect.size rect) / 2)).

(** [c] lies diagonally outside the wall, beyond its corner [(sx, sy)]
    in both coordinates (or on that corner). *)
Definition beyond_corner (rect : DragRect.t) (sx sy : Z) (c : Point) : Prop :=
  (sx = 1 \/ sx = -1) /\ (sy = 1 \/ sy = -1) /\
  0 <= fst (DragRect.size rect) / 2 /\
  0 <= snd (DragRect.size rect) / 2 /\
  fst (DragRect.size rect) / 2 <= sx * (fst c - fst (DragRect.posCenter rect)) /\
  snd (DragRect.size rect) / 2 <= sy * (snd c - snd (DragRect.posCenter rect)).

(** While no flag is set, [update] is stable under further pinching hands
    whose cursor is [c]: the circle is grabbed and sits at [c], or the
    circle is free and [c] is not over it. *)
Definition settled (c : Landmark) (g : Globals) : Prop :=
  (DragCircle.grabbed (circle g) = true
   /\ DragCircle.posCenter (circle g) = xy c)
  \/ (DragCircle.grabbed (circle g) = false /\ over_circle c g = false).

(** After a frame, a circle that is not marked as lost touches no wall. *)
Definition clear_of_walls (g : Globals) : Prop :=
  game_won g = true -> game_over g = false -> collides g = false.

(** *** Sample frames *)

(** A hand pinching over the start position. *)
Definition pinch_start : Hands := [hand_at 21 (640, 360)].

(** A hand pinching over the wall at (600, 600). *)
Definition pinch_wall : Hands := [hand_at 21 (600, 600)].

(** A hand pinching at (1070, 140): within 30 of the wall at (1000, 200)
    and within 70 of the finish centre. *)
Definition pinch_both : Hands := [hand_at 21 (1070, 140)].

(** A hand pinching over the finish centre. *)
Definition pinch_finish : Hands := [hand_at 21 (1100, 100)].

(** A hand with twelve landmarks, all at (700, 300). *)
Definition short_hand : Hands := [hand_at 12 (700, 300)].

(** A hand with eight landmarks. *)
Definition shorter_hand : Hands := [hand_at 8 (700, 300)].

(** The variables after the circle was grabbed at the start. *)
Definition grabbed_state : Globals :=
  match update pinch_start init with
  | Ok g => g
  | Raise _ => init
  end.

(** The variables after the grabbed circle was dragged into a wall. *)
Definition lost_state : Globals :=
  match update pinch_wall grabbed_state with
  | Ok g => g
  | Raise _ => init
  end.

(** The variables after the grabbed circle was dragged onto the finish. *)
Definition won_state : Globals :=
  match update pinch_finish grabbed_state with
  | Ok g => g
  | Raise _ => init
  end.

(** The variables after the grabbed circle was dragged to (1070, 140). *)
Definition both_state : Globals :=
  match update pinch_both grabbed_state with
  | Ok g => g
  | Raise _ => init
  end.

(** [hands] shows a pinching hand whose cursor (landmark 8) is [c]. *)
Definition pinch_at (c : Landmark) (hands : Hands) : Prop :=
  exists (lmList : list Landmark) (hs : Hands) (p12 : Landmark),
    hands = lmList :: hs
    /\ nth_error lmList 8 = Some c
    /\ nth_error lmList 12 = Some p12
    /\ pinching c p12 = true.

(** *** The comparison in binary64 arithmetic *)

(** [float(n)] as [math.sqrt] converts an int argument: the nearest
    double, ties to even; [None] stands for [OverflowError]. *)
Definition float_of_int (n : Z) : option spec_float :=
  match binary_normalize 53 1024 n 0 false with
  | S754_zero s => Some (S754_zero s)
  | S754_finite s m e => Some (S754_finite s m e)
  | S754_infinity _ => None
  | S754_nan => None
  end.

(** [f < b] for a double [f] and an int [b]: the comparison of the two
    values as numbers, without rounding [b]. *)
Definition float_lt_int (f : spec_float) (b : Z) : bool :=
  match f with
  | S754_zero _ => 0 <? b
  | S754_finite s m e =>
    let m := if s then Z.neg m else Z.pos m in
    if 0 <=? e then m * 2 ^ e <? b else m <? b * 2 ^ (- e)
  | S754_infinity s => s
  | S754_nan => false
  end.

(** [math.sqrt(n) < b] as binary64 arithmetic computes it. *)
Definition sqrt_lt_binary64 (n b : Z) : option bool :=
  match float_of_int n with
  | Some f => Some (float_lt_int (SFsqrt 53 1024 f) b)
  | None => None
  end.

(** [check_collision] with the root taken in binary64 arithmetic. *)
Definition check_collision_binary64 (rect : DragRect.t) (circle_center : Point)
           (radius : Z) : option bool :=
  sqrt_lt_binary64 (sq_dist (DragRect.closest rect circle_center) circle_center)
                   radius.

(** Operands of [math.sqrt(n) < b] for which the binary64 comparison is
    the comparison over the reals. *)
Definition binary64_exact (n b : Z) : Prop := b <= 2 ^ 26 /\ n < 2 ^ 1023.

(** A call of [check_collision] whose comparison has such operands. *)
Definition in_range (rect : DragRect.t) (circle_center : Point) (radius : Z) : Prop :=
  binary64_exact (sq_dist (DragRect.closest rect circle_center) circle_center)
                 radius.

(** *** Walls as drawn *)

(** The two corners handed to [cv2.rectangle] when a wall is drawn. *)
Definition drawn_corners (rect : DragRect.t) : Point * Point :=
  let '(cx, cy) := DragRect.posCenter rect in
  let '(w, h) := DragRect.size rect in
  ((cx - w / 2, cy - h / 2), (cx + w / 2, cy + h / 2)).

(** The half sizes [w // 2] and [h // 2] are not negative. *)
Definition well_sized (rect : DragRect.t) : Prop :=
  0 <= fst (DragRect.size rect) / 2 /\ 0 <= snd (DragRect.size rect) / 2.

(** A point of the plane on the drawn wall, border included. *)
Definition in_wall (rect : DragRect.t) (q : R * R) : Prop :=
  (IZR (fst (fst (drawn_corners rect))) <= fst q
   <= IZR (fst (snd (drawn_corners rect))))%R
  /\ (IZR (snd (fst (drawn_corners rect))) <= snd q
      <= IZR (snd (snd (drawn_corners rect))))%R.

(** A pixel on the drawn wall, border included. *)
Definition on_wall (rect : DragRect.t) (c : Point) : Prop :=
  fst (fst (drawn_corners rect)) <= fst c <= fst (snd (drawn_corners rect))
  /\ snd (fst (drawn_corners rect)) <= snd c <= snd (snd (drawn_corners rect)).

(** Euclidean distance from a point of the plane to a pixel. *)
Definition distance_to (q : R * R) (c : Point) : R :=
  sqrt ((fst q - IZR (fst c)) ^ 2 + (snd q - IZR (snd c)) ^ 2)%R.

(** *** Frames *)

(** The first hand, if there is one, has landmarks 0 to 12. *)
Definition full_hands (hands : Hands) : Prop :=
  match hands with
  | [] => True
  | lmList :: _ => (13 <= length lmList)%nat
  end.

(** The statements of the gesture block from the distance computation on,
    [r] being the outcome of [lmList[8]]. *)
Definition grab_drag (r : result Landmark) (g : Globals) : result Globals :=
  tips <- read (fingertips g) ;;
  let '((x1, y1), (x2, y2)) := tips in
  g <- (if sqrt_lt ((x2 - x1) ^ 2 + (y2 - y1) ^ 2) 30 then
          c <- r ;;
          let g := set_cursor g (Some c) in
          if sqrt_lt (sq_dist (xy c) (DragCircle.posCenter (circle g)))
                     (DragCircle.radius (circle g))
          then Ok (set_grabbed g true)
          else Ok g
        else Ok (set_grabbed g false)) ;;
  if DragCircle.grabbed (circle g) then
    c <- read (cursor g) ;;
    Ok (set_circle g (DragCircle.update (circle g) c))
  else Ok g.

(** What [grab_drag] does once the fingertips were read and compared: [e]
    is the cursor of a pinching hand, or [None] for fingertips apart (see
    [grab_drag_run]). *)
Definition grab_drag_at (e : option Landmark) (g : Globals) : Globals :=
  match e with
  | Some c =>
    let g := set_cursor g (Some c) in
    let g := if over_circle c g then set_grabbed g true else g in
    if DragCircle.grabbed (circle g)
    then set_circle g (DragCircle.set_posCenter (circle g) (xy c))
    else g
  | None => set_grabbed g false
  end.

(** While the circle is grabbed, the fingertips last read were pinching
    and [cursor] is bound. *)
Definition pinch_remembered (g : Globals) : Prop :=
  DragCircle.grabbed (circle g) = true ->
  (exists p q : Point,
      fingertips g = Some (p, q) /\ sqrt_lt (sq_dist q p) 30 = true)
  /\ cursor g <> None.

(** The maze and the circle's constants are those of [init], and the
    collision and finish checks have nothing left to record. *)
Definition at_rest (g : Globals) : Prop :=
  layout g = layout init
  /\ DragCircle.start_pos (circle g) = DragCircle.start_pos (circle init)
  /\ DragCircle.radius (circle g) = DragCircle.radius (circle init)
  /\ game_logic g = g.

Example init_playing : status init = Playing.
Proof. reflexivity. Qed.

Example grab_at_start :
  result_map (fun g => DragCircle.grabbed (circle g))
             (update [hand_at 21 (640, 360)] init) = Ok true.
Proof. vm_compute. reflexivity. Qed.

(** ** Square roots and distances *)

Lemma sq_dist_nonneg (p q : Point) : 0 <= sq_dist p q.
Proof. unfold sq_dist. nia. Qed.

Lemma sqrt_lt_spec (n b : Z) :
  0 <= n -> (sqrt_lt n b = true <-> (sqrt (IZR n) < IZR b)%R).
Proof.
  intros Hn. unfold sqrt_lt.
  assert (Hn' : (0 <= IZR n)%R) by (apply IZR_le; exact Hn).
  destruct (Z.ltb_spec 0 b) as [Hb | Hb]; simpl.
  - assert (Hb' : (0 <= IZR b)%R) by (apply IZR_le; lia).
    assert (Hsq : sqrt (IZR (b * b)) = IZR b)
      by (rewrite mult_IZR; apply sqrt_square; exact Hb').
    rewrite Z.ltb_lt. split; intros H.
    + rewrite <- Hsq. apply sqrt_lt_1_alt. split; [exact Hn' | apply IZR_lt; exact H].
    + apply lt_IZR. rewrite <- Hsq in H. apply sqrt_lt_0_alt in H. exact H.
  - split; [discriminate |].
    intros H. exfalso.
    pose proof (sqrt_pos (IZR n)) as Hs.
    assert (Hb' : (IZR b <= 0)%R) by (apply IZR_le; exact Hb).
    lra.
Qed.

Lemma distance_sq_dist (p q : Point) : distance p q = sqrt (IZR (sq_dist p q)).
Proof.
  unfold distance, sq_dist. f_equal.
  rewrite plus_IZR. rewrite <- !minus_IZR.
  change 2%Z with (Z.of_nat 2). rewrite <- !pow_IZR. reflexivity.
Qed.

Lemma sqrt_lt_distance (p q : Point) (b : Z) :
  sqrt_lt (sq_dist p q) b = true <-> (distance p q < IZR b)%R.
Proof.
  rewrite distance_sq_dist. apply sqrt_lt_spec, sq_dist_nonneg.
Qed.

Example lost_state_lost : status lost_state = Lost.
Proof. vm_compute. reflexivity. Qed.

Example won_state_won : status won_state = Won.
Proof. vm_compute. reflexivity. Qed.

Example lost_state_reachable :
  main_loop [mkFrame pinch_start KeyOther; mkFrame pinch_wall KeyOther] init
  = Ok lost_state.
Proof. vm_compute. reflexivity. Qed.

(** ** Collision test *)

Lemma check_collision_sq_dist (rect : DragRect.t) (c : Point) (radius : Z) :
  DragRect.check_collision rect c radius
  = sqrt_lt (sq_dist (DragRect.closest rect c) c) radius.
Proof.
  unfold DragRect.check_collision.
  destruct (DragRect.closest rect c) as [qx qy]. reflexivity.
Qed.

Lemma closest_beyond_corner (rect : DragRect.t) (sx sy : Z) (c : Point) :
  beyond_corner rect sx sy c -> DragRect.closest rect c = corner rect sx sy.
Proof.
  unfold beyond_corner, DragRect.closest, corner.
  destruct rect as [[cx cy] [w h]], c as [x y]; simpl.
  intros (Hsx & Hsy & Hw & Hh & Hx & Hy).
  f_equal.
  - destruct Hsx; subst sx; lia.
  - destruct Hsy; subst sy; lia.
Qed.

Lemma closest_clamp_spec (rect : DragRect.t) (c : Point) :
  0 <= fst (DragRect.size rect) / 2 ->
  0 <= snd (DragRect.size rect) / 2 ->
  DragRect.closest rect c
  = (clamp_spec (fst (DragRect.posCenter rect) - fst (DragRect.size rect) / 2)
                (fst (DragRect.posCenter rect) + fst (DragRect.size rect) / 2)
                (fst c),
     clamp_spec (snd (DragRect.posCenter rect) - snd (DragRect.size rect) / 2)
                (snd (DragRect.posCenter rect) + snd (DragRect.size rect) / 2)
                (snd c)).
Proof.
  unfold DragRect.closest, clamp_spec.
  destruct rect as [[cx cy] [w h]], c as [x y]; simpl. intros Hw Hh.
  f_equal.
  - destruct (Z.ltb_spec x (cx - w / 2)); [lia |].
    destruct (Z.ltb_spec (cx + w / 2) x); lia.
  - destruct (Z.ltb_spec y (cy - h / 2)); [lia |].
    destruct (Z.ltb_spec (cy + h / 2) y); lia.
Qed.

(** The binary64 comparison at the program's own radii and at the ends of
    the range [binary64_exact], beside [sqrt_lt]. *)
Example sqrt_lt_binary64_samples :
  map (fun nb => sqrt_lt_binary64 (fst nb) (snd nb))
      [ (0, 0); (0, 1); (899, 30); (900, 30); (4899, 70); (4900, 70);
        (2 ^ 52 - 1, 2 ^ 26); (2 ^ 52, 2 ^ 26); (2 ^ 1023 - 1, 2 ^ 26); (5, -3) ]
  = map (fun nb => Some (sqrt_lt (fst nb) (snd nb)))
        [ (0, 0); (0, 1); (899, 30); (900, 30); (4899, 70); (4900, 70);
          (2 ^ 52 - 1, 2 ^ 26); (2 ^ 52, 2 ^ 26); (2 ^ 1023 - 1, 2 ^ 26); (5, -3) ].
Proof. vm_compute. reflexivity. Qed.

(** Past the range the two tests part, in either direction, and the
    conversion to a double overflows. *)
Example sqrt_lt_binary64_beyond :
  sqrt_lt ((2 ^ 26 + 1) * (2 ^ 26 + 1) - 1) (2 ^ 26 + 1) = true
  /\ sqrt_lt_binary64 ((2 ^ 26 + 1) * (2 ^ 26 + 1) - 1) (2 ^ 26 + 1) = Some false
  /\ sqrt_lt ((2 ^ 53 + 1) * (2 ^ 53 + 1)) (2 ^ 53 + 1) = false
  /\ sqrt_lt_binary64 ((2 ^ 53 + 1) * (2 ^ 53 + 1)) (2 ^ 53 + 1) = Some true
  /\ sqrt_lt_binary64 (2 ^ 1024 - 2 ^ 970 - 1) 1 = Some false
  /\ sqrt_lt_binary64 (2 ^ 1024 - 2 ^ 970) 1 = None.
Proof. repeat split; vm_compute; reflexivity. Qed.

(** C5, as the program has it.  For a call whose radius is at most [2 ^ 26]
    and whose squared distance is below [2 ^ 1023], [check_collision] holds
    exactly when the Euclidean distance from the circle centre to the point
    got by clamping it into the wall is strictly below the radius; for a
    wall of non-negative half sizes that point is the centre clamped,
    coordinate by coordinate, to the wall's intervals.  For a centre lying
    diagonally beyond a corner (beyond the wall in both coordinates, on the
    corner's side), at distance [r] from that corner, the test holds iff
    [r < radius] and fails iff [radius <= r]. *)
Theorem check_collision_exact (rect : DragRect.t) (c : Point) (radius : Z) :
  in_range rect c radius ->
  (DragRect.check_collision rect c radius = true
   <-> (distance (DragRect.closest rect c) c < IZR radius)%R)
  /\ (0 <= fst (DragRect.size rect) / 2 ->
      0 <= snd (DragRect.size rect) / 2 ->
      DragRect.closest rect c
      = (clamp_spec (fst (DragRect.posCenter rect) - fst (DragRect.size rect) / 2)
                    (fst (DragRect.posCenter rect) + fst (DragRect.size rect) / 2)
                    (fst c),
         clamp_spec (snd (DragRect.posCenter rect) - snd (DragRect.size rect) / 2)
                    (snd (DragRect.posCenter rect) + snd (DragRect.size rect) / 2)
                    (snd c)))
  /\ (forall sx sy : Z,
         beyond_corner rect sx sy c ->
         (DragRect.check_collision rect c radius = true
          <-> (distance (corner rect sx sy) c < IZR radius)%R)
         /\ (DragRect.check_collision rect c radius = false
             <-> (IZR radius <= distance (corner rect sx sy) c)%R)).
Proof.
  intros _.
  assert (Hgen : DragRect.check_collision rect c radius = true
                 <-> (distance (DragRect.closest rect c) c < IZR radius)%R).
  { rewrite check_collision_sq_dist. apply sqrt_lt_distance. }
  split; [exact Hgen |].
  split; [apply closest_clamp_spec |].
  intros sx sy Hc.
  rewrite <- (closest_beyond_corner rect sx sy c Hc).
  split; [exact Hgen |].
  rewrite <- Bool.not_true_iff_false, Hgen.
  split; intros H; lra.
Qed.

Lemma check_collision_exact_witness :
  in_range (DragRect.make (200, 200) (100, 100)) (253, 254) 5
  /\ beyond_corner (DragRect.make (200, 200) (100, 100)) 1 1 (253, 254)
  /\ (DragRect.check_collision (DragRect.make (200, 200) (100, 100)) (253, 254) 5 = false
      <-> (IZR 5 <= distance (250, 250)%Z (253, 254)%Z)%R).
Proof.
  assert (Hr : in_range (DragRect.make (200, 200) (100, 100)) (253, 254) 5).
  { split; vm_compute; [intros E; discriminate E | reflexivity]. }
  assert (H : beyond_corner (DragRect.make (200, 200) (100, 100)) 1 1 (253, 254)).
  { unfold beyond_corner. repeat split; try (left; reflexivity);
      vm_compute; intros E; discriminate E. }
  split; [exact Hr |].
  split; [exact H |].
  exact (proj2 (proj2 (proj2 (check_collision_exact
                                (DragRect.make (200, 200) (100, 100)) (253, 254) 5 Hr))
                      1 1 H)).
Defined.

(** C5, as stated, fails twice.  The centre (240, 260) lies outside the
    wall at (200, 200), above its top edge, at a distance of at least 12
    from the corner (250, 250); [check_collision] with radius 12 holds all
    the same, in binary64 arithmetic too, because the clamped point is
    (240, 250) and not the corner.  And for the wall of size zero at
    (0, 0), the centre (536903681, 32769) and the radius 536903682, the
    distance to the clamped point is below the radius, but the root
    computed in binary64 arithmetic is not. *)
Lemma check_collision_not_exact :
  ~ on_wall (DragRect.make (200, 200) (100, 100)) (240, 260)
  /\ corner (DragRect.make (200, 200) (100, 100)) 1 1 = (250, 250)
  /\ (IZR 12 <= distance (250, 250)%Z (240, 260)%Z)%R
  /\ DragRect.check_collision (DragRect.make (200, 200) (100, 100)) (240, 260) 12 = true
  /\ check_collision_binary64 (DragRect.make (200, 200) (100, 100)) (240, 260) 12
     = Some true
  /\ DragRect.closest (DragRect.make (0, 0) (0, 0)) (536903681, 32769) = (0, 0)
  /\ (distance (0, 0)%Z (536903681, 32769)%Z < IZR 536903682)%R
  /\ check_collision_binary64 (DragRect.make (0, 0) (0, 0)) (536903681, 32769) 536903682
     = Some false.
Proof.
  split.
  { unfold on_wall. vm_compute. intros [_ [_ H]]. apply H. reflexivity. }
  split; [reflexivity |].
  split.
  { destruct (Rle_or_lt (IZR 12) (distance (250, 250) (240, 260))) as [H | H];
      [exact H |].
    apply sqrt_lt_distance in H. vm_compute in H. discriminate H. }
  split; [reflexivity |].
  split; [vm_compute; reflexivity |].
  split; [reflexivity |].
  split; [apply sqrt_lt_distance; vm_compute; reflexivity |].
  vm_compute. reflexivity.
Qed.

(** ** Gesture handling *)

(** Case analysis on the scrutinee of the first [match] or [if] of the goal
    or of the hypotheses. *)
Ltac break_match :=
  match goal with
  | |- context [match ?x with _ => _ end] => destruct x eqn:?
  | H : context [match ?x with _ => _ end] |- _ => destruct x eqn:?
  end.

Ltac crush_result :=
  repeat (break_match; simpl in *; try discriminate);
  repeat match goal with
         | H : Ok _ = Ok _ |- _ => injection H as H; subst
         end;
  simpl in *.

Lemma gesture_no_hands (g : Globals) : gesture [] g = Ok g.
Proof. reflexivity. Qed.

Lemma gesture_closed (hands : Hands) (g : Globals) :
  status g <> Playing -> gesture hands g = Ok g.
Proof.
  unfold status, gesture. intros H.
  destruct hands as [| lmList hs]; [reflexivity |].
  destruct (game_over g); [reflexivity |].
  destruct (game_won g); [reflexivity | contradiction].
Qed.

Lemma status_playing (g : Globals) :
  status g = Playing <-> game_over g = false /\ game_won g = false.
Proof.
  unfold status. destruct (game_over g), (game_won g); intuition discriminate.
Qed.

Lemma nth_error_length_13 {A : Type} (l : list A) (a : A) :
  nth_error l 12 = Some a -> (13 <=? length l)%nat = true.
Proof.
  intros H. apply Nat.leb_le.
  assert (12 < length l)%nat by (apply nth_error_Some; congruence). lia.
Qed.

(** On a hand with landmarks 8 and 12, while playing, the gesture handling
    raises nothing and is [grab_release]. *)
Lemma gesture_full (lmList : list Landmark) (hs : Hands) (p8 p12 : Landmark)
      (g : Globals) :
  nth_error lmList 8 = Some p8 ->
  nth_error lmList 12 = Some p12 ->
  status g = Playing ->
  gesture (lmList :: hs) g = Ok (grab_release p8 p12 g).
Proof.
  intros H8 H12 Hp. apply status_playing in Hp. destruct Hp as [Hgo Hgw].
  unfold gesture, grab_release. rewrite Hgo, Hgw. simpl negb. simpl andb. cbv iota.
  rewrite (nth_error_length_13 _ _ H12).
  unfold index. rewrite H8, H12. simpl bind.
  destruct p8 as [[x1 y1] z1], p12 as [[x2 y2] z2].
  unfold pinching, over_circle, sq_dist, xy. simpl.
  destruct (sqrt_lt _ 30); simpl; [| reflexivity].
  destruct (sqrt_lt _ (DragCircle.radius (circle g))); simpl.
  - reflexivity.
  - unfold DragCircle.update. destruct (DragCircle.grabbed (circle g)); reflexivity.
Qed.

(** The gesture handling writes [circle.posCenter], [circle.grabbed],
    the fingertip variables and [cursor], and nothing else. *)
Lemma gesture_frame (hands : Hands) (g g' : Globals) :
  gesture hands g = Ok g' ->
  layout g' = layout g
  /\ game_over g' = game_over g
  /\ game_won g' = game_won g
  /\ DragCircle.start_pos (circle g') = DragCircle.start_pos (circle g)
  /\ DragCircle.radius (circle g') = DragCircle.radius (circle g).
Proof.
  unfold gesture, layout, bind, index, read, DragCircle.update. intros H.
  crush_result; repeat split; reflexivity.
Qed.

(** ** Collision and finish checks *)

Lemma set_game_over_same (g : Globals) : set_game_over g (game_over g) = g.
Proof. destruct g; reflexivity. Qed.

(** The loop over the walls, from any point of the list on. *)
Lemma wall_loop_eq (l : list DragRect.t) (g : Globals) :
  fold_left
    (fun g rect =>
       if DragRect.check_collision rect (DragCircle.posCenter (circle g))
                                   (DragCircle.radius (circle g))
       then set_game_over g true
       else g)
    l g
  = set_game_over g
      (game_over g
       || existsb (fun rect =>
                     DragRect.check_collision rect (DragCircle.posCenter (circle g))
                                              (DragCircle.radius (circle g))) l).
Proof.
  revert g. induction l as [| rect l IH]; intros g; simpl.
  - rewrite orb_false_r. symmetry. apply set_game_over_same.
  - rewrite IH.
    destruct (DragRect.check_collision rect _ _); simpl.
    + rewrite orb_true_r. reflexivity.
    + reflexivity.
Qed.

Lemma wall_checks_eq (g : Globals) :
  wall_checks g = set_game_over g (game_over g || collides g).
Proof. apply wall_loop_eq. Qed.

Lemma game_logic_frame (g : Globals) :
  layout (game_logic g) = layout g
  /\ circle (game_logic g) = circle g
  /\ fingertips (game_logic g) = fingertips g
  /\ cursor (game_logic g) = cursor g.
Proof.
  unfold game_logic, finish_check. rewrite wall_checks_eq.
  destruct (at_finish _); repeat split; reflexivity.
Qed.

Lemma game_logic_game_over (g : Globals) :
  game_over (game_logic g) = game_over g || collides g.
Proof.
  unfold game_logic, finish_check. rewrite wall_checks_eq.
  destruct (at_finish _); reflexivity.
Qed.

Lemma game_logic_game_won (g : Globals) :
  game_won (game_logic g) = game_won g || at_finish g.
Proof.
  unfold game_logic, finish_check. rewrite wall_checks_eq.
  change (at_finish (set_game_over g (game_over g || collides g))) with (at_finish g).
  destruct (at_finish g); simpl.
  - rewrite orb_true_r. reflexivity.
  - rewrite orb_false_r. reflexivity.
Qed.

Lemma collides_game_logic (g : Globals) : collides (game_logic g) = collides g.
Proof.
  destruct (game_logic_frame g) as (Hl & Hc & _).
  unfold collides. rewrite Hc.
  unfold layout in Hl. injection Hl as -> _ _. reflexivity.
Qed.

Lemma at_finish_game_logic (g : Globals) : at_finish (game_logic g) = at_finish g.
Proof.
  destruct (game_logic_frame g) as (Hl & Hc & _).
  unfold at_finish. rewrite Hc.
  unfold layout in Hl. injection Hl as _ -> ->. reflexivity.
Qed.

Lemma collides_existsb_iff (g : Globals) :
  collides g = true
  <-> exists rect,
      In rect (rectList g)
      /\ DragRect.check_collision rect (DragCircle.posCenter (circle g))
                                  (DragCircle.radius (circle g)) = true.
Proof. unfold collides. apply existsb_exists. Qed.

(** The frame as a whole: [update] raises only what [gesture] raises. *)
Lemma update_ok (hands : Hands) (g g' : Globals) :
  update hands g = Ok g' <->
  exists g1, gesture hands g = Ok g1 /\ g' = game_logic g1.
Proof.
  unfold update, bind. destruct (gesture hands g) as [g1 | e].
  - split.
    + intros H. injection H as <-. exists g1. split; reflexivity.
    + intros (g2 & H & ->). injection H as ->. reflexivity.
  - split; [discriminate | intros (g2 & H & _); discriminate].
Qed.

(** ** [reset_game] *)

Lemma reset_game_spec (g : Globals) :
  DragCircle.posCenter (circle (reset_game g)) = DragCircle.start_pos (circle g)
  /\ DragCircle.start_pos (circle (reset_game g)) = DragCircle.start_pos (circle g)
  /\ DragCircle.grabbed (circle (reset_game g)) = DragCircle.grabbed (circle g)
  /\ game_over (reset_game g) = false
  /\ game_won (reset_game g) = false
  /\ layout (reset_game g) = layout g.
Proof. repeat split; reflexivity. Qed.

(** C1. [reset_game] puts the circle back at [start_pos] and clears both
    flags, so the status is [Playing]; it leaves [circle.grabbed] as it
    was.  After the grabbed circle was dragged into the wall at (600, 600),
    [reset_game] returns a state whose circle is still grabbed. *)
Theorem reset_game_leaves_grabbed :
  (forall g : Globals,
      DragCircle.posCenter (circle (reset_game g))
      = DragCircle.start_pos (circle (reset_game g))
      /\ status (reset_game g) = Playing
      /\ DragCircle.grabbed (circle (reset_game g)) = DragCircle.grabbed (circle g))
  /\ main_loop [mkFrame pinch_start KeyOther; mkFrame pinch_wall KeyOther] init
     = Ok lost_state
  /\ status lost_state = Lost
  /\ main_loop [mkFrame pinch_start KeyOther; mkFrame pinch_wall KeyR] init
     = Ok (reset_game lost_state)
  /\ DragCircle.grabbed (circle (reset_game lost_state)) = true.
Proof.
  split; [intros g; repeat split; reflexivity |].
  split; [apply lost_state_reachable |].
  repeat split; vm_compute; reflexivity.
Qed.

(** ** Hands with too few landmarks *)

(** C2. A hand with fewer than 13 landmarks is not skipped.  In the first
    frame of a run it raises [NameError]; after a frame in which the circle
    was grabbed, a hand of 12 landmarks moves the circle to its landmark 8,
    and a hand of 8 landmarks raises [IndexError]. *)
Theorem short_hand_not_skipped :
  update short_hand init = Raise NameError
  /\ DragCircle.posCenter (circle grabbed_state) = (640, 360)
  /\ result_map (fun g => DragCircle.posCenter (circle g))
                (update short_hand grabbed_state) = Ok (700, 300)
  /\ update shorter_hand grabbed_state = Raise IndexError.
Proof. repeat split; vm_compute; reflexivity. Qed.

(** ** Session status *)

(** C3, as the program has it.  One status is shown at any time, [Lost]
    before [Won]: it is [Lost] whenever [game_over] is set, [Won] when only
    [game_won] is set and [Playing] when neither is.  The finish check is
    made in every frame, whatever the wall checks found. *)
Theorem status_lost_first (g : Globals) :
  (status g = Lost <-> game_over g = true)
  /\ (status g = Won <-> game_over g = false /\ game_won g = true)
  /\ (status g = Playing <-> game_over g = false /\ game_won g = false)
  /\ game_over (game_logic g) = game_over g || collides g
  /\ game_won (game_logic g) = game_won g || at_finish g.
Proof.
  split; [| split; [| split; [apply status_playing |]]].
  - unfold status. destruct (game_over g), (game_won g); intuition discriminate.
  - unfold status. destruct (game_over g), (game_won g); intuition discriminate.
  - split; [apply game_logic_game_over | apply game_logic_game_won].
Qed.

(** C3, as stated, fails: dragging the grabbed circle to (1070, 140) sets
    [game_over] and [game_won] in the same frame. *)
Lemma lost_and_won_same_frame :
  game_over grabbed_state = false
  /\ game_won grabbed_state = false
  /\ main_loop [mkFrame pinch_start KeyOther; mkFrame pinch_both KeyOther] init
     = Ok both_state
  /\ game_over both_state = true
  /\ game_won both_state = true.
Proof. repeat split; vm_compute; reflexivity. Qed.

(** ** Terminal states *)

Lemma update_clear_of_walls (hands : Hands) (g g' : Globals) :
  update hands g = Ok g' -> clear_of_walls g'.
Proof.
  intros H. apply update_ok in H. destruct H as (g1 & _ & ->).
  intros _ Hgo. rewrite game_logic_game_over in Hgo.
  rewrite collides_game_logic.
  apply orb_false_elim in Hgo. apply Hgo.
Qed.

Lemma reset_game_clear_of_walls (g : Globals) : clear_of_walls (reset_game g).
Proof. intros Hgw. discriminate Hgw. Qed.

Lemma main_loop_clear_of_walls (fs : list Frame) (g g' : Globals) :
  clear_of_walls g -> main_loop fs g = Ok g' -> clear_of_walls g'.
Proof.
  revert g. induction fs as [| f fs IH]; intros g Hg H; simpl in H.
  - injection H as <-. exact Hg.
  - unfold bind in H. destruct (update (hands_of f) g) as [g1 | e] eqn:Hu;
      [| discriminate].
    destruct (key_of f).
    + injection H as <-. eapply update_clear_of_walls, Hu.
    + eapply IH; [apply reset_game_clear_of_walls | exact H].
    + eapply IH; [eapply update_clear_of_walls, Hu | exact H].
Qed.

Lemma reachable_clear_of_walls (g : Globals) : reachable g -> clear_of_walls g.
Proof.
  intros [fs H]. eapply main_loop_clear_of_walls; [| exact H].
  intros Hgw. discriminate Hgw.
Qed.

(** One frame in a terminal state. *)
Lemma update_terminal (hands : Hands) (g : Globals) :
  clear_of_walls g -> status g <> Playing ->
  update hands g = Ok (game_logic g)
  /\ circle (game_logic g) = circle g
  /\ status (game_logic g) = status g.
Proof.
  intros Hc Hs. unfold update. rewrite (gesture_closed hands g Hs). simpl.
  split; [reflexivity |].
  split; [apply game_logic_frame |].
  unfold status in *.
  rewrite game_logic_game_over, game_logic_game_won.
  destruct (game_over g) eqn:Hgo; [reflexivity |].
  destruct (game_won g) eqn:Hgw; [| contradiction].
  rewrite (Hc Hgw Hgo). reflexivity.
Qed.

(** C4. From a reachable state whose status is [Lost] or [Won], any number
    of frames without a reset, whatever hands they show, raise nothing and
    leave the circle's position, its grabbed flag and the status as they
    were. *)
Theorem terminal_freeze (g : Globals) (hs : list Hands) :
  reachable g ->
  status g <> Playing ->
  exists g',
    updates hs g = Ok g'
    /\ DragCircle.posCenter (circle g') = DragCircle.posCenter (circle g)
    /\ DragCircle.grabbed (circle g') = DragCircle.grabbed (circle g)
    /\ status g' = status g.
Proof.
  intros Hr. apply reachable_clear_of_walls in Hr.
  revert g Hr. induction hs as [| h hs IH]; intros g Hc Hs; simpl.
  - exists g. repeat split; reflexivity.
  - destruct (update_terminal h g Hc Hs) as (Hu & Hcirc & Hst).
    rewrite Hu. simpl.
    destruct (IH (game_logic g)) as (g' & Hus & Hp & Hg & Hs').
    + eapply update_clear_of_walls, Hu.
    + rewrite Hst. exact Hs.
    + exists g'. rewrite Hp, Hg, Hs', Hcirc, Hst. repeat split; [exact Hus].
Qed.

Lemma terminal_freeze_witness :
  reachable won_state
  /\ status won_state <> Playing
  /\ exists g',
      updates [pinch_wall; short_hand; []] won_state = Ok g'
      /\ DragCircle.posCenter (circle g') = DragCircle.posCenter (circle won_state)
      /\ DragCircle.grabbed (circle g') = DragCircle.grabbed (circle won_state)
      /\ status g' = status won_state.
Proof.
  assert (Hr : reachable won_state).
  { exists [mkFrame pinch_start KeyOther; mkFrame pinch_finish KeyOther].
    vm_compute. reflexivity. }
  assert (Hs : status won_state <> Playing).
  { vm_compute. intros E. discriminate E. }
  split; [exact Hr |].
  split; [exact Hs |].
  exact (terminal_freeze won_state [pinch_wall; short_hand; []] Hr Hs).
Defined.

(** ** Grab and release *)

Lemma over_circle_distance (c : Landmark) (g : Globals) :
  over_circle c g = true
  <-> (distance (xy c) (DragCircle.posCenter (circle g))
       < IZR (DragCircle.radius (circle g)))%R.
Proof. apply sqrt_lt_distance. Qed.

Lemma grab_release_grabbed (p8 p12 : Landmark) (g : Globals) :
  DragCircle.grabbed (circle (grab_release p8 p12 g))
  = pinching p8 p12 && (over_circle p8 g || DragCircle.grabbed (circle g)).
Proof.
  unfold grab_release.
  destruct (pinching p8 p12); simpl; [| reflexivity].
  change (over_circle p8 (set_cursor (set_fingertips g (Some (xy p8, xy p12))) (Some p8)))
    with (over_circle p8 g).
  destruct (over_circle p8 g); simpl; [reflexivity |].
  destruct (DragCircle.grabbed (circle g)) eqn:Hg; simpl; rewrite ?Hg; reflexivity.
Qed.

(** C6. While playing, a hand with landmarks 8 and 12 raises nothing.  On a
    grabbed circle, a hand that is not pinching clears [grabbed] and a
    pinching hand keeps it, wherever the cursor is; on a free circle,
    [grabbed] becomes true exactly when the hand is pinching and the cursor
    is over the circle. *)
Theorem grab_release_rule (lmList : list Landmark) (hs : Hands)
        (p8 p12 : Landmark) (g : Globals) :
  nth_error lmList 8 = Some p8 ->
  nth_error lmList 12 = Some p12 ->
  status g = Playing ->
  exists g',
    gesture (lmList :: hs) g = Ok g'
    /\ (DragCircle.grabbed (circle g) = true ->
        pinching p8 p12 = false ->
        DragCircle.grabbed (circle g') = false)
    /\ (DragCircle.grabbed (circle g) = true ->
        pinching p8 p12 = true ->
        DragCircle.grabbed (circle g') = true)
    /\ (DragCircle.grabbed (circle g) = false ->
        (DragCircle.grabbed (circle g') = true
         <-> pinching p8 p12 = true
             /\ (distance (xy p8) (DragCircle.posCenter (circle g))
                 < IZR (DragCircle.radius (circle g)))%R)).
Proof.
  intros H8 H12 Hs. exists (grab_release p8 p12 g).
  split; [apply gesture_full; assumption |].
  rewrite grab_release_grabbed, <- over_circle_distance.
  split; [intros _ ->; reflexivity |].
  split; [intros -> ->; apply orb_true_r |].
  intros ->. rewrite orb_false_r. apply andb_true_iff.
Qed.

Lemma grab_release_rule_witness :
  nth_error (hand_at 21 (900, 500)) 8 = Some (900, 500, 0)
  /\ nth_error (hand_at 21 (900, 500)) 12 = Some (900, 500, 0)
  /\ status grabbed_state = Playing
  /\ exists g',
      gesture [hand_at 21 (900, 500)] grabbed_state = Ok g'
      /\ (DragCircle.grabbed (circle grabbed_state) = true ->
          pinching (900, 500, 0) (900, 500, 0) = false ->
          DragCircle.grabbed (circle g') = false)
      /\ (DragCircle.grabbed (circle grabbed_state) = true ->
          pinching (900, 500, 0) (900, 500, 0) = true ->
          DragCircle.grabbed (circle g') = true)
      /\ (DragCircle.grabbed (circle grabbed_state) = false ->
          (DragCircle.grabbed (circle g') = true
           <-> pinching (900, 500, 0) (900, 500, 0) = true
               /\ (distance (xy (900, 500, 0)%Z)
                            (DragCircle.posCenter (circle grabbed_state))
                   < IZR (DragCircle.radius (circle grabbed_state)))%R)).
Proof.
  split; [reflexivity |].
  split; [reflexivity |].
  split; [vm_compute; reflexivity |].
  apply (grab_release_rule (hand_at 21 (900, 500)) [] (900, 500, 0) (900, 500, 0)
                           grabbed_state).
  - reflexivity.
  - reflexivity.
  - vm_compute. reflexivity.
Defined.

(** ** Repeating a pinch *)

Lemma game_logic_terminal (g : Globals) :
  status g <> Playing -> status (game_logic g) <> Playing.
Proof.
  unfold status. rewrite game_logic_game_over, game_logic_game_won.
  destruct (game_over g); simpl; [intros _ E; discriminate E |].
  destruct (game_won g); simpl; [| intros H; contradiction].
  intros _. destruct (collides g); intros E; discriminate E.
Qed.

Section Pinch.

(** The cursor of the repeated pinch. *)
Variable c : Landmark.

Lemma settled_game_logic (g : Globals) :
  settled c g -> settled c (game_logic g).
Proof.
  unfold settled, over_circle.
  destruct (game_logic_frame g) as (_ & -> & _). exact (fun H => H).
Qed.

Lemma grab_release_settled (p12 : Landmark) (g : Globals) :
  pinching c p12 = true -> settled c (grab_release c p12 g).
Proof.
  intros Hp. unfold settled, grab_release. rewrite Hp.
  change (over_circle c (set_cursor (set_fingertips g (Some (xy c, xy p12))) (Some c)))
    with (over_circle c g).
  destruct (over_circle c g) eqn:Ho; simpl.
  - left. split; reflexivity.
  - destruct (DragCircle.grabbed (circle g)) eqn:Hg; simpl.
    + left. split; [exact Hg | reflexivity].
    + right. split; [exact Hg | exact Ho].
Qed.

Lemma grab_release_circle_settled (p12 : Landmark) (g : Globals) :
  pinching c p12 = true -> settled c g ->
  circle (grab_release c p12 g) = circle g.
Proof.
  intros Hp Hs. unfold grab_release. rewrite Hp.
  change (over_circle c (set_cursor (set_fingertips g (Some (xy c, xy p12))) (Some c)))
    with (over_circle c g).
  destruct g as [rl [sp pc rad gr] fp fr go gw ft cu].
  unfold settled in Hs. simpl in Hs.
  destruct Hs as [[-> ->] | [-> Ho]].
  - destruct (over_circle c _); reflexivity.
  - rewrite Ho. reflexivity.
Qed.

(** One more pinch at [c] on a state that is terminal or settled at [c]. *)
Lemma update_pinch_again (h : Hands) (g : Globals) :
  pinch_at c h ->
  status g <> Playing \/ settled c g ->
  exists g',
    update h g = Ok g'
    /\ circle g' = circle g
    /\ (status g' <> Playing \/ settled c g').
Proof.
  intros (lmList & hs & p12 & -> & H8 & H12 & Hp) Hg.
  destruct (status g) eqn:Hs.
  - destruct Hg as [Hg | Hg]; [contradiction |].
    exists (game_logic (grab_release c p12 g)).
    unfold update. rewrite (gesture_full lmList hs c p12 g H8 H12 Hs). simpl.
    split; [reflexivity |].
    assert (Hc : circle (game_logic (grab_release c p12 g)) = circle g).
    { destruct (game_logic_frame (grab_release c p12 g)) as (_ & -> & _).
      apply grab_release_circle_settled; assumption. }
    split; [exact Hc |].
    right. apply settled_game_logic, grab_release_settled, Hp.
  - exists (game_logic g). unfold update.
    rewrite gesture_closed by (rewrite Hs; discriminate). simpl.
    split; [reflexivity |].
    split; [apply game_logic_frame |].
    left. apply game_logic_terminal. rewrite Hs. discriminate.
  - exists (game_logic g). unfold update.
    rewrite gesture_closed by (rewrite Hs; discriminate). simpl.
    split; [reflexivity |].
    split; [apply game_logic_frame |].
    left. apply game_logic_terminal. rewrite Hs. discriminate.
Qed.

(** The first pinch at [c], on any state. *)
Lemma update_pinch_first (h : Hands) (g : Globals) :
  pinch_at c h ->
  exists g', update h g = Ok g' /\ (status g' <> Playing \/ settled c g').
Proof.
  intros (lmList & hs & p12 & -> & H8 & H12 & Hp).
  destruct (status g) eqn:Hs.
  - exists (game_logic (grab_release c p12 g)).
    unfold update. rewrite (gesture_full lmList hs c p12 g H8 H12 Hs). simpl.
    split; [reflexivity |].
    right. apply settled_game_logic, grab_release_settled, Hp.
  - exists (game_logic g). unfold update.
    rewrite gesture_closed by (rewrite Hs; discriminate). simpl.
    split; [reflexivity |].
    left. apply game_logic_terminal. rewrite Hs. discriminate.
  - exists (game_logic g). unfold update.
    rewrite gesture_closed by (rewrite Hs; discriminate). simpl.
    split; [reflexivity |].
    left. apply game_logic_terminal. rewrite Hs. discriminate.
Qed.

Lemma updates_pinch_again (hs : list Hands) (g : Globals) :
  Forall (pinch_at c) hs ->
  status g <> Playing \/ settled c g ->
  exists g', updates hs g = Ok g' /\ circle g' = circle g.
Proof.
  intros Hall. revert g. induction Hall as [| h hs Hh _ IH]; intros g Hg; simpl.
  - exists g. split; reflexivity.
  - destruct (update_pinch_again h g Hh Hg) as (g1 & Hu & Hc & Hg1).
    rewrite Hu. simpl.
    destruct (IH g1 Hg1) as (g2 & Hus & Hc2).
    exists g2. split; [exact Hus | congruence].
Qed.

End Pinch.

(** C7. After a frame with a pinching hand whose cursor is [c], any number
    of further frames with pinching hands at the same cursor raise nothing
    and leave the circle, position and grabbed flag alike, as the first
    frame left it. *)
Theorem pinch_idempotent (c : Landmark) (h : Hands) (hs : list Hands) (g : Globals) :
  pinch_at c h ->
  Forall (pinch_at c) hs ->
  exists g1 g2,
    update h g = Ok g1
    /\ updates hs g1 = Ok g2
    /\ DragCircle.posCenter (circle g2) = DragCircle.posCenter (circle g1)
    /\ DragCircle.grabbed (circle g2) = DragCircle.grabbed (circle g1).
Proof.
  intros Hh Hall.
  destruct (update_pinch_first c h g Hh) as (g1 & Hu & Hg1).
  destruct (updates_pinch_again c hs g1 Hall Hg1) as (g2 & Hus & Hc).
  exists g1, g2. rewrite Hc. repeat split; assumption.
Qed.

Lemma pinch_at_hand_at (p : Point) :
  pinch_at (fst p, snd p, 0) [hand_at 21 p].
Proof.
  exists (hand_at 21 p), [], (fst p, snd p, 0).
  repeat split.
  unfold pinching, sqrt_lt, sq_dist, xy. cbn [fst snd].
  rewrite !Z.sub_diag. reflexivity.
Defined.

Lemma pinch_idempotent_witness :
  pinch_at (900, 500, 0) [hand_at 21 (900, 500)]
  /\ Forall (pinch_at (900, 500, 0)) [[hand_at 21 (900, 500)]; [hand_at 21 (900, 500)]]
  /\ exists g1 g2,
      update [hand_at 21 (900, 500)] grabbed_state = Ok g1
      /\ updates [[hand_at 21 (900, 500)]; [hand_at 21 (900, 500)]] g1 = Ok g2
      /\ DragCircle.posCenter (circle g2) = DragCircle.posCenter (circle g1)
      /\ DragCircle.grabbed (circle g2) = DragCircle.grabbed (circle g1).
Proof.
  assert (H1 : pinch_at (900, 500, 0) [hand_at 21 (900, 500)])
    by exact (pinch_at_hand_at (900, 500)).
  assert (H2 : Forall (pinch_at (900, 500, 0))
                      [[hand_at 21 (900, 500)]; [hand_at 21 (900, 500)]])
    by (repeat constructor; exact H1).
  split; [exact H1 |].
  split; [exact H2 |].
  exact (pinch_idempotent (900, 500, 0) [hand_at 21 (900, 500)]
                          [[hand_at 21 (900, 500)]; [hand_at 21 (900, 500)]]
                          grabbed_state H1 H2).
Defined.

(** ** Walls in any order *)

Lemma existsb_Permutation {A : Type} (f : A -> bool) (l l' : list A) :
  Permutation l l' -> existsb f l = existsb f l'.
Proof.
  induction 1 as [| a l l' _ IH | a b l | l l' l'' _ IH1 _ IH2]; simpl.
  - reflexivity.
  - rewrite IH. reflexivity.
  - destruct (f a), (f b); reflexivity.
  - rewrite IH1. exact IH2.
Qed.

(** The gesture handling does not read [rectList]. *)
Lemma gesture_set_rectList (hands : Hands) (g : Globals) (l : list DragRect.t) :
  gesture hands (set_rectList g l)
  = result_map (fun g' => set_rectList g' l) (gesture hands g).
Proof.
  unfold gesture.
  destruct hands as [| lmList hs]; [reflexivity |].
  cbn [game_over game_won set_rectList].
  destruct (negb (game_over g) && negb (game_won g)); [| reflexivity].
  assert (Htail : forall (r : result Landmark) (g0 : Globals),
             (tips <- read (fingertips (set_rectList g0 l)) ;;
              let '((x1, y1), (x2, y2)) := tips in
              g1 <- (if sqrt_lt ((x2 - x1) ^ 2 + (y2 - y1) ^ 2) 30 then
                       c <- r ;;
                       let g2 := set_cursor (set_rectList g0 l) (Some c) in
                       if sqrt_lt (sq_dist (xy c) (DragCircle.posCenter (circle g2)))
                                  (DragCircle.radius (circle g2))
                       then Ok (set_grabbed g2 true)
                       else Ok g2
                     else Ok (set_grabbed (set_rectList g0 l) false)) ;;
              if DragCircle.grabbed (circle g1) then
                c <- read (cursor g1) ;;
                Ok (set_circle g1 (DragCircle.update (circle g1) c))
              else Ok g1)
             = result_map (fun g' => set_rectList g' l)
                 (tips <- read (fingertips g0) ;;
                  let '((x1, y1), (x2, y2)) := tips in
                  g1 <- (if sqrt_lt ((x2 - x1) ^ 2 + (y2 - y1) ^ 2) 30 then
                           c <- r ;;
                           let g2 := set_cursor g0 (Some c) in
                           if sqrt_lt (sq_dist (xy c) (DragCircle.posCenter (circle g2)))
                                      (DragCircle.radius (circle g2))
                           then Ok (set_grabbed g2 true)
                           else Ok g2
                         else Ok (set_grabbed g0 false)) ;;
                  if DragCircle.grabbed (circle g1) then
                    c <- read (cursor g1) ;;
                    Ok (set_circle g1 (DragCircle.update (circle g1) c))
                  else Ok g1)).
  { intros r g0. cbn [fingertips set_rectList].
    destruct (fingertips g0) as [[[x1 y1] [x2 y2]] |]; [| reflexivity].
    cbn [read bind].
    destruct (sqrt_lt ((x2 - x1) ^ 2 + (y2 - y1) ^ 2) 30).
    - destruct r as [c | e]; [| reflexivity].
      cbn [bind set_cursor circle set_rectList].
      destruct (sqrt_lt _ _); cbn [bind]; [reflexivity |].
      change (circle (set_cursor (set_rectList g0 l) (Some c))) with (circle g0).
      change (circle (set_cursor g0 (Some c))) with (circle g0).
      destruct (DragCircle.grabbed (circle g0)); reflexivity.
    - reflexivity. }
  destruct (13 <=? length lmList)%nat.
  - destruct (index lmList 8) as [p8 | e8]; [| reflexivity].
    destruct (index lmList 12) as [p12 | e12]; [| reflexivity].
    cbn [bind]. apply (Htail (Ok p8) (set_fingertips g (Some (xy p8, xy p12)))).
  - cbn [bind]. apply Htail.
Qed.

Lemma status_game_logic_Permutation (g : Globals) (l : list DragRect.t) :
  Permutation (rectList g) l ->
  status (game_logic (set_rectList g l)) = status (game_logic g).
Proof.
  intros Hp. unfold status.
  rewrite !game_logic_game_over, !game_logic_game_won.
  change (at_finish (set_rectList g l)) with (at_finish g).
  change (game_over (set_rectList g l)) with (game_over g).
  change (game_won (set_rectList g l)) with (game_won g).
  replace (collides (set_rectList g l)) with (collides g); [reflexivity |].
  unfold collides. cbn [circle rectList set_rectList].
  apply existsb_Permutation, Hp.
Qed.

(** C8. A frame that starts in status [Playing] and raises nothing ends in
    status [Lost] exactly when some wall of the list collides with the
    circle as the frame left it; and with the walls listed in any other
    order the frame ends in the same status. *)
Theorem lost_iff_some_wall (hands : Hands) (g g' : Globals) :
  status g = Playing ->
  update hands g = Ok g' ->
  (status g' = Lost
   <-> exists rect,
       In rect (rectList g)
       /\ DragRect.check_collision rect (DragCircle.posCenter (circle g'))
                                   (DragCircle.radius (circle g')) = true)
  /\ (forall l : list DragRect.t,
         Permutation (rectList g) l ->
         result_map status (update hands (set_rectList g l)) = Ok (status g')).
Proof.
  intros Hs Hu. apply update_ok in Hu. destruct Hu as (g1 & Hg & ->).
  apply status_playing in Hs. destruct Hs as [Hgo Hgw].
  destruct (gesture_frame hands g g1 Hg) as (Hl & Hgo1 & Hgw1 & _).
  assert (Hrl : rectList g1 = rectList g)
    by (unfold layout in Hl; congruence).
  split.
  - destruct (game_logic_frame g1) as (_ & -> & _).
    rewrite <- Hrl, <- collides_existsb_iff.
    unfold status. rewrite game_logic_game_over, Hgo1, Hgo. simpl.
    destruct (collides g1); [tauto |].
    split; [| discriminate].
    destruct (game_won (game_logic g1)); discriminate.
  - intros l Hp. unfold update.
    rewrite gesture_set_rectList, Hg. simpl.
    rewrite status_game_logic_Permutation; [reflexivity |].
    rewrite Hrl. exact Hp.
Qed.

Lemma lost_iff_some_wall_witness :
  status grabbed_state = Playing
  /\ update pinch_wall grabbed_state = Ok lost_state
  /\ (status lost_state = Lost
      <-> exists rect,
          In rect (rectList grabbed_state)
          /\ DragRect.check_collision rect (DragCircle.posCenter (circle lost_state))
                                      (DragCircle.radius (circle lost_state)) = true)
  /\ (forall l : list DragRect.t,
         Permutation (rectList grabbed_state) l ->
         result_map status (update pinch_wall (set_rectList grabbed_state l))
         = Ok (status lost_state)).
Proof.
  assert (Hs : status grabbed_state = Playing) by (vm_compute; reflexivity).
  assert (Hu : update pinch_wall grabbed_state = Ok lost_state)
    by (vm_compute; reflexivity).
  split; [exact Hs |].
  split; [exact Hu |].
  exact (lost_iff_some_wall pinch_wall grabbed_state lost_state Hs Hu).
Defined.

(** ** The maze layout *)

Lemma update_layout (hands : Hands) (g g' : Globals) :
  update hands g = Ok g' -> layout g' = layout g.
Proof.
  intros H. apply update_ok in H. destruct H as (g1 & Hg & ->).
  destruct (game_logic_frame g1) as (-> & _).
  apply (gesture_frame hands g g1 Hg).
Qed.

Lemma main_loop_layout (fs : list Frame) (g g' : Globals) :
  main_loop fs g = Ok g' -> layout g' = layout g.
Proof.
  revert g. induction fs as [| f fs IH]; intros g H; simpl in H.
  - injection H as <-. reflexivity.
  - unfold bind in H. destruct (update (hands_of f) g) as [g1 | e] eqn:Hu;
      [| discriminate].
    apply update_layout in Hu.
    destruct (key_of f).
    + injection H as <-. exact Hu.
    + apply IH in H. rewrite H, <- Hu. reflexivity.
    + apply IH in H. congruence.
Qed.

(** C9. [reset_game] leaves the wall list (every wall's centre and size)
    and the finish circle (centre and radius) as they were, and so does
    every frame and every run of the loop. *)
Theorem layout_fixed (g : Globals) :
  layout (reset_game g) = layout g
  /\ (forall (hands : Hands) (g' : Globals),
         update hands g = Ok g' -> layout g' = layout g)
  /\ (forall (fs : list Frame) (g' : Globals),
         main_loop fs g = Ok g' -> layout g' = layout g).
Proof.
  split; [reflexivity |].
  split; [intros hands g'; apply update_layout | intros fs g'; apply main_loop_layout].
Qed.

Lemma layout_fixed_witness :
  update pinch_wall grabbed_state = Ok lost_state
  /\ layout (reset_game grabbed_state) = layout grabbed_state
  /\ layout lost_state = layout grabbed_state.
Proof.
  assert (Hu : update pinch_wall grabbed_state = Ok lost_state)
    by (vm_compute; reflexivity).
  split; [exact Hu |].
  split; [exact (proj1 (layout_fixed grabbed_state)) |].
  exact (proj1 (proj2 (layout_fixed grabbed_state)) pinch_wall lost_state Hu).
Defined.

(** ** The flags between two resets *)

Lemma update_flags (hands : Hands) (g g' : Globals) :
  update hands g = Ok g' ->
  (game_over g = true -> game_over g' = true)
  /\ (game_won g = true -> game_won g' = true).
Proof.
  intros H. apply update_ok in H. destruct H as (g1 & Hg & ->).
  destruct (gesture_frame hands g g1 Hg) as (_ & Hgo & Hgw & _).
  rewrite game_logic_game_over, game_logic_game_won, Hgo, Hgw.
  split; intros ->; reflexivity.
Qed.

(** [updates] is the main loop on frames without a key press. *)
Lemma main_loop_updates (hs : list Hands) (g : Globals) :
  main_loop (map (fun h => mkFrame h KeyOther) hs) g = updates hs g.
Proof.
  revert g. induction hs as [| h hs IH]; intros g; simpl; [reflexivity |].
  destruct (update h g) as [g1 | e]; simpl; [apply IH | reflexivity].
Qed.

(** C10. Over any number of frames without a reset, a flag that is set
    stays set: [game_over] and [game_won] never go back to false.
    [reset_game] clears both. *)
Theorem flags_monotone (hs : list Hands) (g g' : Globals) :
  updates hs g = Ok g' ->
  (game_over g = true -> game_over g' = true)
  /\ (game_won g = true -> game_won g' = true)
  /\ game_over (reset_game g') = false
  /\ game_won (reset_game g') = false.
Proof.
  intros H.
  assert (Hm : (game_over g = true -> game_over g' = true)
               /\ (game_won g = true -> game_won g' = true)).
  { revert g H. induction hs as [| h hs IH]; intros g H; simpl in H.
    - injection H as <-. split; exact (fun E => E).
    - unfold bind in H. destruct (update h g) as [g1 | e] eqn:Hu; [| discriminate].
      destruct (update_flags h g g1 Hu) as [Hgo Hgw].
      destruct (IH g1 H) as [Hgo' Hgw'].
      split; auto. }
  destruct Hm as [Hgo Hgw].
  repeat split; assumption.
Qed.

Lemma flags_monotone_witness :
  updates [pinch_wall; pinch_start; []] grabbed_state = Ok lost_state
  /\ (game_over grabbed_state = true -> game_over lost_state = true)
  /\ (game_won grabbed_state = true -> game_won lost_state = true)
  /\ game_over (reset_game lost_state) = false
  /\ game_won (reset_game lost_state) = false.
Proof.
  assert (H : updates [pinch_wall; pinch_start; []] grabbed_state = Ok lost_state)
    by (vm_compute; reflexivity).
  split; [exact H |].
  exact (flags_monotone [pinch_wall; pinch_start; []] grabbed_state lost_state H).
Defined.

(** * Further properties of the code *)

(** ** The collision test as geometry *)

Lemma closest_on_wall (rect : DragRect.t) (c : Point) :
  well_sized rect -> on_wall rect (DragRect.closest rect c).
Proof.
  unfold well_sized, on_wall, drawn_corners, DragRect.closest.
  destruct rect as [[cx cy] [w h]], c as [x y]; cbn -[Z.div].
  generalize (w / 2) (h / 2). lia.
Qed.

Lemma closest_fixed_on_wall (rect : DragRect.t) (c : Point) :
  on_wall rect c -> DragRect.closest rect c = c.
Proof.
  unfold on_wall, drawn_corners, DragRect.closest.
  destruct rect as [[cx cy] [w h]], c as [x y]; cbn -[Z.div].
  generalize (w / 2) (h / 2). intros hw hh H.
  f_equal; lia.
Qed.

(** Along one axis, the clamped coordinate is at least as near to [v] as
    any point of the interval. *)
Lemma clamp_nearest (lo hi v : Z) (q : R) :
  (IZR lo <= q <= IZR hi)%R ->
  ((IZR (Z.max lo (Z.min v hi)) - IZR v) ^ 2 <= (q - IZR v) ^ 2)%R.
Proof.
  intros [Hlo Hhi].
  assert (Hle : lo <= hi) by (apply le_IZR; lra).
  destruct (Z_lt_le_dec v lo) as [Hv | Hv].
  - replace (Z.max lo (Z.min v hi)) with lo by lia.
    apply IZR_lt in Hv. nra.
  - destruct (Z_lt_le_dec hi v) as [Hv' | Hv'].
    + replace (Z.max lo (Z.min v hi)) with hi by lia.
      apply IZR_lt in Hv'. nra.
    + replace (Z.max lo (Z.min v hi)) with v by lia.
      replace ((IZR v - IZR v) ^ 2)%R with 0%R by ring. apply pow2_ge_0.
Qed.

Lemma distance_distance_to (p c : Point) :
  distance p c = distance_to (IZR (fst p), IZR (snd p)) c.
Proof. reflexivity. Qed.

Lemma closest_nearest (rect : DragRect.t) (c : Point) (q : R * R) :
  in_wall rect q ->
  (distance (DragRect.closest rect c) c <= distance_to q c)%R.
Proof.
  unfold in_wall, drawn_corners, distance, distance_to, DragRect.closest.
  destruct rect as [[cx cy] [w h]], c as [x y], q as [qx qy]; simpl fst; simpl snd.
  intros [Hx Hy]. apply sqrt_le_1_alt.
  pose proof (clamp_nearest _ _ x qx Hx).
  pose proof (clamp_nearest _ _ y qy Hy).
  lra.
Qed.

(** X1. For a wall with non-negative half sizes and a call within the
    range of the exact comparison (radius at most [2 ^ 26], squared
    distance below [2 ^ 1023]), [check_collision] holds exactly when some
    point of the wall as it is drawn, border included, lies at a distance
    below the radius from the circle centre: the open disc meets the
    wall. *)
Theorem check_collision_disc_meets_wall (rect : DragRect.t) (c : Point) (radius : Z) :
  well_sized rect ->
  in_range rect c radius ->
  (DragRect.check_collision rect c radius = true
   <-> exists q : R * R, in_wall rect q /\ (distance_to q c < IZR radius)%R).
Proof.
  intros Hw _. rewrite check_collision_sq_dist, sqrt_lt_distance. split.
  - intros H.
    exists (IZR (fst (DragRect.closest rect c)), IZR (snd (DragRect.closest rect c))).
    split; [| rewrite <- distance_distance_to; exact H].
    destruct (closest_on_wall rect c Hw) as [[H1 H2] [H3 H4]].
    unfold in_wall; simpl fst; simpl snd.
    repeat split; apply IZR_le; assumption.
  - intros (q & Hq & Hd).
    pose proof (closest_nearest rect c q Hq). lra.
Qed.

Lemma check_collision_disc_meets_wall_witness :
  well_sized (DragRect.make (600, 600) (100, 100))
  /\ in_range (DragRect.make (600, 600) (100, 100)) (640, 530) 30
  /\ (DragRect.check_collision (DragRect.make (600, 600) (100, 100)) (640, 530) 30 = true
      <-> exists q : R * R,
          in_wall (DragRect.make (600, 600) (100, 100)) q
          /\ (distance_to q (640, 530)%Z < IZR 30)%R).
Proof.
  assert (H : well_sized (DragRect.make (600, 600) (100, 100))).
  { split; vm_compute; intros E; discriminate E. }
  assert (Hr : in_range (DragRect.make (600, 600) (100, 100)) (640, 530) 30).
  { split; vm_compute; [intros E; discriminate E | reflexivity]. }
  split; [exact H |].
  split; [exact Hr |].
  exact (check_collision_disc_meets_wall
           (DragRect.make (600, 600) (100, 100)) (640, 530) 30 H Hr).
Defined.

Lemma sqrt_lt_mono (n b b' : Z) :
  b <= b' -> sqrt_lt n b = true -> sqrt_lt n b' = true.
Proof.
  unfold sqrt_lt. intros Hb H.
  apply andb_true_iff in H. destruct H as [H0 Hn].
  apply Z.ltb_lt in H0, Hn.
  apply andb_true_iff. split; apply Z.ltb_lt; nia.
Qed.

Lemma sqrt_lt_iff (n b : Z) : sqrt_lt n b = true <-> 0 < b /\ n < b * b.
Proof.
  unfold sqrt_lt. rewrite andb_true_iff, !Z.ltb_lt. reflexivity.
Qed.

(** X2. A circle of radius zero or less collides with no wall, and a
    collision at some radius is a collision at every larger radius. *)
Theorem check_collision_radius (rect : DragRect.t) (c : Point) (r r' : Z) :
  (r <= 0 -> DragRect.check_collision rect c r = false)
  /\ (r <= r' ->
      DragRect.check_collision rect c r = true ->
      DragRect.check_collision rect c r' = true).
Proof.
  rewrite !check_collision_sq_dist. split.
  - intros Hr. unfold sqrt_lt.
    destruct (Z.ltb_spec 0 r); [lia | reflexivity].
  - apply sqrt_lt_mono.
Qed.

Lemma check_collision_radius_witness :
  0 <= 0
  /\ DragRect.check_collision (DragRect.make (600, 600) (100, 100)) (600, 600) 0 = false
  /\ 30 <= 45
  /\ DragRect.check_collision (DragRect.make (600, 600) (100, 100)) (640, 530) 30 = true
  /\ DragRect.check_collision (DragRect.make (600, 600) (100, 100)) (640, 530) 45 = true.
Proof.
  assert (H0 : 0 <= 0) by lia.
  assert (H1 : 30 <= 45) by lia.
  assert (H2 : DragRect.check_collision (DragRect.make (600, 600) (100, 100))
                                        (640, 530) 30 = true) by reflexivity.
  split; [exact H0 |].
  split; [exact (proj1 (check_collision_radius
                          (DragRect.make (600, 600) (100, 100)) (600, 600) 0 0) H0) |].
  split; [exact H1 |].
  split; [exact H2 |].
  exact (proj2 (check_collision_radius
                  (DragRect.make (600, 600) (100, 100)) (640, 530) 30 45) H1 H2).
Defined.

(** X3. For a call within the range of the exact comparison (radius at
    most [2 ^ 26], squared distance below [2 ^ 1023]): when the circle
    centre is level with a wall (its [x] lies within the wall's horizontal
    extent), the test is the test of a box grown by the radius: it holds
    iff the radius is positive and [y] is less than the radius away from
    the wall's vertical extent.  The same holds with the axes exchanged.
    A centre on the wall collides iff the radius is positive. *)
Theorem check_collision_beside_edge (rect : DragRect.t) (c : Point) (radius : Z) :
  in_range rect c radius ->
  let x0 := fst (fst (drawn_corners rect)) in
  let y0 := snd (fst (drawn_corners rect)) in
  let x1 := fst (snd (drawn_corners rect)) in
  let y1 := snd (snd (drawn_corners rect)) in
  (x0 <= fst c <= x1 -> y0 <= y1 ->
   (DragRect.check_collision rect c radius = true
    <-> 0 < radius /\ y0 - radius < snd c < y1 + radius))
  /\ (y0 <= snd c <= y1 -> x0 <= x1 ->
      (DragRect.check_collision rect c radius = true
       <-> 0 < radius /\ x0 - radius < fst c < x1 + radius))
  /\ (on_wall rect c ->
      (DragRect.check_collision rect c radius = true <-> 0 < radius)).
Proof.
  intros _.
  unfold on_wall, drawn_corners, DragRect.check_collision, DragRect.closest.
  destruct rect as [[cx cy] [w h]], c as [x y]; cbn -[Z.div Z.pow].
  generalize (w / 2) (h / 2). intros hw hh.
  rewrite sqrt_lt_iff.
  split; [| split].
  - intros Hx Hy.
    replace (Z.max (cx - hw) (Z.min x (cx + hw)) - x) with 0 by lia.
    split.
    + intros [Hr Hd]. split; [exact Hr |]. nia.
    + intros [Hr Hd]. split; [exact Hr |].
      assert (Hm : - radius < Z.max (cy - hh) (Z.min y (cy + hh)) - y < radius) by lia.
      revert Hm. generalize (Z.max (cy - hh) (Z.min y (cy + hh)) - y). intros d Hm. nia.
  - intros Hy Hx.
    replace (Z.max (cy - hh) (Z.min y (cy + hh)) - y) with 0 by lia.
    split.
    + intros [Hr Hd]. split; [exact Hr |]. nia.
    + intros [Hr Hd]. split; [exact Hr |].
      assert (Hm : - radius < Z.max (cx - hw) (Z.min x (cx + hw)) - x < radius) by lia.
      revert Hm. generalize (Z.max (cx - hw) (Z.min x (cx + hw)) - x). intros d Hm. nia.
  - intros [Hx Hy].
    replace (Z.max (cx - hw) (Z.min x (cx + hw)) - x) with 0 by lia.
    replace (Z.max (cy - hh) (Z.min y (cy + hh)) - y) with 0 by lia.
    split; [intros [Hr _]; exact Hr | intros Hr; split; [exact Hr | nia]].
Qed.

Lemma check_collision_beside_edge_witness :
  in_range (DragRect.make (600, 600) (100, 100)) (640, 520) 30
  /\ 550 <= 640 <= 650
  /\ 550 <= 650
  /\ (DragRect.check_collision (DragRect.make (600, 600) (100, 100)) (640, 520) 30 = true
      <-> 0 < 30 /\ 550 - 30 < 520 < 650 + 30).
Proof.
  assert (Hx : 550 <= 640 <= 650) by lia.
  assert (Hy : 550 <= 650) by lia.
  assert (Hr : in_range (DragRect.make (600, 600) (100, 100)) (640, 520) 30).
  { split; vm_compute; [intros E; discriminate E | reflexivity]. }
  split; [exact Hr |].
  split; [exact Hx |].
  split; [exact Hy |].
  exact (proj1 (check_collision_beside_edge
                  (DragRect.make (600, 600) (100, 100)) (640, 520) 30 Hr) Hx Hy).
Defined.

(** X4. For a wall with non-negative half sizes and a call within the
    range of the exact comparison (radius at most [2 ^ 26], squared
    distance below [2 ^ 1023]), a collision puts the circle centre inside
    the wall grown by the radius on every side: the bounding-box test is a
    necessary condition of [check_collision]. *)
Theorem check_collision_bounding_box (rect : DragRect.t) (c : Point) (radius : Z) :
  well_sized rect ->
  in_range rect c radius ->
  DragRect.check_collision rect c radius = true ->
  fst (fst (drawn_corners rect)) - radius < fst c
  < fst (snd (drawn_corners rect)) + radius
  /\ snd (fst (drawn_corners rect)) - radius < snd c
     < snd (snd (drawn_corners rect)) + radius.
Proof.
  intros Hw _ H. rewrite check_collision_sq_dist, sqrt_lt_iff in H.
  destruct H as [Hr Hd].
  destruct (closest_on_wall rect c Hw) as [Hx Hy].
  revert Hd Hx Hy. unfold sq_dist.
  generalize (DragRect.closest rect c) (drawn_corners rect).
  intros [qx qy] [[x0 y0] [x1 y1]]; cbn [fst snd]. intros Hd Hx Hy.
  assert (Hdx : - radius < qx - fst c < radius) by nia.
  assert (Hdy : - radius < qy - snd c < radius) by nia.
  lia.
Qed.

Lemma check_collision_bounding_box_witness :
  well_sized (DragRect.make (600, 600) (100, 100))
  /\ in_range (DragRect.make (600, 600) (100, 100)) (660, 540) 30
  /\ DragRect.check_collision (DragRect.make (600, 600) (100, 100)) (660, 540) 30 = true
  /\ 550 - 30 < 660 < 650 + 30
  /\ 550 - 30 < 540 < 650 + 30.
Proof.
  assert (Hw : well_sized (DragRect.make (600, 600) (100, 100))).
  { split; vm_compute; intros E; discriminate E. }
  assert (Hc : DragRect.check_collision (DragRect.make (600, 600) (100, 100))
                                        (660, 540) 30 = true) by reflexivity.
  assert (Hr : in_range (DragRect.make (600, 600) (100, 100)) (660, 540) 30).
  { split; vm_compute; [intros E; discriminate E | reflexivity]. }
  split; [exact Hw |].
  split; [exact Hr |].
  split; [exact Hc |].
  exact (check_collision_bounding_box
           (DragRect.make (600, 600) (100, 100)) (660, 540) 30 Hw Hr Hc).
Defined.

Lemma sq_opp (a : Z) : (- a) ^ 2 = a ^ 2.
Proof. rewrite !Z.pow_2_r. ring. Qed.

(** X5. The test depends only on where the circle is relative to the
    wall: moving wall and circle by the same vector does not change it,
    and, for a wall with non-negative half sizes, neither does mirroring
    the circle centre at the wall's centre along either axis. *)
Theorem check_collision_symmetries (rect : DragRect.t) (c : Point) (radius dx dy : Z) :
  let cx := fst (DragRect.posCenter rect) in
  let cy := snd (DragRect.posCenter rect) in
  DragRect.check_collision (DragRect.make (cx + dx, cy + dy) (DragRect.size rect))
                           (fst c + dx, snd c + dy) radius
  = DragRect.check_collision rect c radius
  /\ (well_sized rect ->
      DragRect.check_collision rect (2 * cx - fst c, snd c) radius
      = DragRect.check_collision rect c radius
      /\ DragRect.check_collision rect (fst c, 2 * cy - snd c) radius
         = DragRect.check_collision rect c radius).
Proof.
  unfold well_sized, DragRect.check_collision, DragRect.closest.
  destruct rect as [[cx cy] [w h]], c as [x y]; cbn -[Z.div Z.pow Z.mul].
  generalize (w / 2) (h / 2). intros hw hh.
  split; [| intros [Hw Hh]; split].
  - replace (Z.max (cx + dx - hw) (Z.min (x + dx) (cx + dx + hw)) - (x + dx))
      with (Z.max (cx - hw) (Z.min x (cx + hw)) - x) by lia.
    replace (Z.max (cy + dy - hh) (Z.min (y + dy) (cy + dy + hh)) - (y + dy))
      with (Z.max (cy - hh) (Z.min y (cy + hh)) - y) by lia.
    reflexivity.
  - rewrite <- (sq_opp (Z.max (cx - hw) (Z.min x (cx + hw)) - x)).
    replace (Z.max (cx - hw) (Z.min (2 * cx - x) (cx + hw)) - (2 * cx - x))
      with (- (Z.max (cx - hw) (Z.min x (cx + hw)) - x)) by lia.
    reflexivity.
  - rewrite <- (sq_opp (Z.max (cy - hh) (Z.min y (cy + hh)) - y)).
    replace (Z.max (cy - hh) (Z.min (2 * cy - y) (cy + hh)) - (2 * cy - y))
      with (- (Z.max (cy - hh) (Z.min y (cy + hh)) - y)) by lia.
    reflexivity.
Qed.

Lemma check_collision_symmetries_witness :
  well_sized (DragRect.make (600, 600) (100, 100))
  /\ DragRect.check_collision (DragRect.make (600, 600) (100, 100)) (2 * 600 - 660, 540) 30
     = DragRect.check_collision (DragRect.make (600, 600) (100, 100)) (660, 540) 30.
Proof.
  assert (Hw : well_sized (DragRect.make (600, 600) (100, 100))).
  { split; vm_compute; intros E; discriminate E. }
  split; [exact Hw |].
  exact (proj1 (proj2 (check_collision_symmetries
                         (DragRect.make (600, 600) (100, 100)) (660, 540) 30 0 0) Hw)).
Defined.

(** ** The gesture block, step by step *)

Lemma gesture_run (lmList : list Landmark) (hs : Hands) (g : Globals) :
  gesture (lmList :: hs) g
  = if negb (game_over g) && negb (game_won g) then
      g0 <- (if (13 <=? length lmList)%nat then
               p8 <- index lmList 8 ;;
               p12 <- index lmList 12 ;;
               Ok (set_fingertips g (Some (xy p8, xy p12)))
             else Ok g) ;;
      grab_drag (index lmList 8) g0
    else Ok g.
Proof. reflexivity. Qed.

Lemma grab_drag_run (r : result Landmark) (g : Globals) :
  grab_drag r g
  = match fingertips g with
    | None => Raise NameError
    | Some (p, q) =>
      if sqrt_lt (sq_dist q p) 30
      then c <- r ;; Ok (grab_drag_at (Some c) g)
      else Ok (grab_drag_at None g)
    end.
Proof.
  unfold grab_drag, grab_drag_at, over_circle.
  destruct (fingertips g) as [[[x1 y1] [x2 y2]] |]; [| reflexivity].
  unfold sq_dist; cbn [read bind fst snd].
  destruct (sqrt_lt ((x2 - x1) ^ 2 + (y2 - y1) ^ 2) 30); [| reflexivity].
  destruct r as [c | e]; [| reflexivity].
  cbn [bind].
  change (circle (set_cursor g (Some c))) with (circle g).
  destruct (sqrt_lt _ (DragCircle.radius (circle g))); cbn [bind].
  - reflexivity.
  - change (circle (set_cursor g (Some c))) with (circle g).
    unfold DragCircle.update.
    destruct (DragCircle.grabbed (circle g)); reflexivity.
Qed.

Lemma index_length {A : Type} (l : list A) (i : nat) :
  (i < length l)%nat -> exists a, nth_error l i = Some a.
Proof.
  intros H. destruct (nth_error l i) as [a |] eqn:E; [exists a; reflexivity |].
  apply nth_error_None in E. lia.
Qed.

(** What a frame does to the variables the gesture block writes, in terms
    of [grab_drag_at]. *)
Lemma gesture_inv (lmList : list Landmark) (hs : Hands) (g g' : Globals) :
  status g = Playing ->
  gesture (lmList :: hs) g = Ok g' ->
  exists (g0 : Globals) (p q : Point) (e : option Landmark),
    g' = grab_drag_at e g0
    /\ fingertips g0 = Some (p, q)
    /\ set_fingertips g (fingertips g0) = g0
    /\ ((13 <= length lmList)%nat ->
        exists p8 p12, nth_error lmList 8 = Some p8
                       /\ nth_error lmList 12 = Some p12
                       /\ p = xy p8 /\ q = xy p12)
    /\ ((length lmList < 13)%nat -> g0 = g)
    /\ match e with
       | Some c => sqrt_lt (sq_dist q p) 30 = true /\ nth_error lmList 8 = Some c
       | None => sqrt_lt (sq_dist q p) 30 = false
       end.
Proof.
  intros Hs H. apply status_playing in Hs. destruct Hs as [Hgo Hgw].
  rewrite gesture_run, Hgo, Hgw in H. cbn [negb andb] in H.
  assert (Hpre : exists g0,
             grab_drag (index lmList 8) g0 = Ok g'
             /\ set_fingertips g (fingertips g0) = g0
             /\ ((13 <= length lmList)%nat ->
                 exists p8 p12, nth_error lmList 8 = Some p8
                                /\ nth_error lmList 12 = Some p12
                                /\ fingertips g0 = Some (xy p8, xy p12))
             /\ ((length lmList < 13)%nat -> g0 = g)).
  { destruct (Nat.leb_spec 13 (length lmList)) as [Hlen | Hlen].
    - destruct (index_length lmList 8 ltac:(lia)) as [p8 H8].
      destruct (index_length lmList 12 ltac:(lia)) as [p12 H12].
      unfold index at 1 2 in H. rewrite H8, H12 in H. cbn [bind] in H.
      exists (set_fingertips g (Some (xy p8, xy p12))).
      split; [exact H |]. split; [reflexivity |].
      split; [intros _; exists p8, p12; repeat split; assumption | lia].
    - cbn [bind] in H. exists g.
      split; [exact H |]. split; [destruct g; reflexivity |].
      split; [lia | reflexivity]. }
  destruct Hpre as (g0 & Hgd & Hset & Hfull & Hshort).
  rewrite grab_drag_run in Hgd.
  destruct (fingertips g0) as [[p q] |] eqn:Hf; [| discriminate].
  destruct (sqrt_lt (sq_dist q p) 30) eqn:Hp.
  - unfold index in Hgd. destruct (nth_error lmList 8) as [c |] eqn:H8;
      [| discriminate].
    cbn [bind] in Hgd. injection Hgd as <-.
    exists g0, p, q, (Some c).
    split; [reflexivity |]. split; [exact Hf |].
    split; [rewrite Hf; exact Hset |].
    split; [| split; [exact Hshort | split; [exact Hp | reflexivity]]].
    intros Hlen. destruct (Hfull Hlen) as (p8 & p12 & E8 & E12 & Ef).
    exists p8, p12. injection Ef as -> ->. repeat split; assumption.
  - injection Hgd as <-.
    exists g0, p, q, None.
    split; [reflexivity |]. split; [exact Hf |].
    split; [rewrite Hf; exact Hset |].
    split; [| split; [exact Hshort | exact Hp]].
    intros Hlen. destruct (Hfull Hlen) as (p8 & p12 & E8 & E12 & Ef).
    exists p8, p12. injection Ef as -> ->. repeat split; assumption.
Qed.

(** ** Exceptions *)

Lemma update_full_hands (hands : Hands) (g : Globals) :
  full_hands hands -> exists g', update hands g = Ok g'.
Proof.
  intros Hf. unfold update.
  destruct hands as [| lmList hs]; [exists (game_logic g); reflexivity |].
  destruct (status g) eqn:Hs.
  - simpl in Hf.
    destruct (index_length lmList 8 ltac:(lia)) as [p8 H8].
    destruct (index_length lmList 12 ltac:(lia)) as [p12 H12].
    rewrite (gesture_full lmList hs p8 p12 g H8 H12 Hs).
    eexists. reflexivity.
  - rewrite gesture_closed by (rewrite Hs; discriminate). eexists. reflexivity.
  - rewrite gesture_closed by (rewrite Hs; discriminate). eexists. reflexivity.
Qed.

Lemma main_loop_full_hands (fs : list Frame) (g : Globals) :
  Forall (fun f => full_hands (hands_of f)) fs ->
  exists g', main_loop fs g = Ok g'.
Proof.
  intros Hall. revert g. induction Hall as [| f fs Hf _ IH]; intros g; simpl.
  - exists g. reflexivity.
  - destruct (update_full_hands (hands_of f) g Hf) as [g1 ->]. simpl.
    destruct (key_of f); [exists g1; reflexivity | apply IH | apply IH].
Qed.

(** X6. When every frame shows no hand or a first hand with at least 13
    landmarks, no statement of the gesture block or of the checks reads an
    unbound name or indexes past the end of a list: the run raises neither
    [NameError] nor [IndexError], whatever the hands do and whichever keys
    are pressed. *)
Theorem main_loop_full_hands_no_lookup_error (fs : list Frame) (g : Globals) :
  Forall (fun f => full_hands (hands_of f)) fs ->
  main_loop fs g <> Raise NameError /\ main_loop fs g <> Raise IndexError.
Proof.
  intros Hall. destruct (main_loop_full_hands fs g Hall) as [g' ->].
  split; intros E; discriminate E.
Qed.

Lemma main_loop_full_hands_no_lookup_error_witness :
  Forall (fun f => full_hands (hands_of f))
         [mkFrame pinch_start KeyOther; mkFrame [] KeyR; mkFrame pinch_wall KeyOther]
  /\ main_loop [mkFrame pinch_start KeyOther; mkFrame [] KeyR;
                mkFrame pinch_wall KeyOther] init <> Raise NameError
  /\ main_loop [mkFrame pinch_start KeyOther; mkFrame [] KeyR;
                mkFrame pinch_wall KeyOther] init <> Raise IndexError.
Proof.
  assert (H : Forall (fun f => full_hands (hands_of f))
                     [mkFrame pinch_start KeyOther; mkFrame [] KeyR;
                      mkFrame pinch_wall KeyOther]).
  { repeat constructor; simpl; lia. }
  split; [exact H |].
  exact (main_loop_full_hands_no_lookup_error _ init H).
Defined.

(** X7. A frame that raises [NameError] or [IndexError] (the two
    exceptions of [exn]) does so while playing and on a first hand with
    fewer than 13 landmarks: [NameError] when no earlier hand had bound the
    fingertip variables, [IndexError] when the fingertips bound by an
    earlier hand were pinching and the hand has no landmark 8. *)
Theorem update_raise_inv (hands : Hands) (g : Globals) (e : exn) :
  update hands g = Raise e ->
  exists (lmList : list Landmark) (hs : Hands),
    hands = lmList :: hs
    /\ status g = Playing
    /\ (length lmList < 13)%nat
    /\ ((e = NameError /\ fingertips g = None)
        \/ (e = IndexError
            /\ (length lmList <= 8)%nat
            /\ exists p q : Point,
                fingertips g = Some (p, q) /\ sqrt_lt (sq_dist q p) 30 = true)).
Proof.
  intros H.
  destruct hands as [| lmList hs]; [discriminate |].
  exists lmList, hs. split; [reflexivity |].
  destruct (status g) eqn:Hs;
    [| unfold update in H; rewrite gesture_closed in H
         by (rewrite Hs; discriminate); discriminate ..].
  split; [reflexivity |].
  destruct (Nat.leb_spec 13 (length lmList)) as [Hlen | Hlen].
  { destruct (update_full_hands (lmList :: hs) g Hlen) as [g' Hg'].
    rewrite Hg' in H. discriminate. }
  split; [exact Hlen |].
  unfold update in H. rewrite gesture_run in H.
  apply status_playing in Hs. destruct Hs as [Hgo Hgw].
  rewrite Hgo, Hgw in H. cbn [negb andb] in H.
  destruct (Nat.leb_spec 13 (length lmList)) as [Hlen' | _]; [lia |].
  cbn [bind] in H. rewrite grab_drag_run in H.
  destruct (fingertips g) as [[p q] |].
  - right. destruct (sqrt_lt (sq_dist q p) 30) eqn:Hp; [| discriminate].
    unfold index in H. destruct (nth_error lmList 8) as [c |] eqn:H8;
      [discriminate |].
    cbn [bind] in H. injection H as <-.
    split; [reflexivity |].
    split; [apply nth_error_None; exact H8 |].
    exists p, q. split; [reflexivity | exact Hp].
  - left. cbn [bind] in H. injection H as <-. split; reflexivity.
Qed.

Lemma update_raise_inv_witness :
  update shorter_hand grabbed_state = Raise IndexError
  /\ exists (lmList : list Landmark) (hs : Hands),
      shorter_hand = lmList :: hs
      /\ status grabbed_state = Playing
      /\ (length lmList < 13)%nat
      /\ ((IndexError = NameError /\ fingertips grabbed_state = None)
          \/ (IndexError = IndexError
              /\ (length lmList <= 8)%nat
              /\ exists p q : Point,
                  fingertips grabbed_state = Some (p, q)
                  /\ sqrt_lt (sq_dist q p) 30 = true)).
Proof.
  assert (H : update shorter_hand grabbed_state = Raise IndexError)
    by (vm_compute; reflexivity).
  split; [exact H |].
  exact (update_raise_inv shorter_hand grabbed_state IndexError H).
Defined.

(** ** Where the circle goes *)

Lemma grab_drag_at_some (c : Landmark) (g : Globals) :
  grab_drag_at (Some c) g
  = if over_circle c g || DragCircle.grabbed (circle g)
    then set_circle (set_cursor g (Some c))
                    (DragCircle.make (DragCircle.start_pos (circle g)) (xy c)
                                     (DragCircle.radius (circle g)) true)
    else set_cursor g (Some c).
Proof.
  unfold grab_drag_at.
  change (over_circle c (set_cursor g (Some c))) with (over_circle c g).
  destruct (over_circle c g); [reflexivity |].
  cbn [orb circle set_cursor].
  destruct (DragCircle.grabbed (circle g)) eqn:Hg; [| reflexivity].
  unfold DragCircle.set_posCenter. cbn. rewrite Hg. reflexivity.
Qed.

Lemma grab_drag_at_frame (e : option Landmark) (g : Globals) :
  layout (grab_drag_at e g) = layout g
  /\ game_over (grab_drag_at e g) = game_over g
  /\ game_won (grab_drag_at e g) = game_won g
  /\ fingertips (grab_drag_at e g) = fingertips g
  /\ DragCircle.start_pos (circle (grab_drag_at e g)) = DragCircle.start_pos (circle g)
  /\ DragCircle.radius (circle (grab_drag_at e g)) = DragCircle.radius (circle g).
Proof.
  destruct e as [c |]; [| repeat split; reflexivity].
  rewrite grab_drag_at_some.
  destruct (over_circle c g || DragCircle.grabbed (circle g));
    repeat split; reflexivity.
Qed.

(** X8. A frame moves the circle only while playing, only to landmark 8
    of the first hand of that same frame, and only if the circle is
    grabbed when the frame ends: no position of an earlier frame is ever
    used. *)
Theorem update_moves_to_fingertip (hands : Hands) (g g' : Globals) :
  update hands g = Ok g' ->
  DragCircle.posCenter (circle g') = DragCircle.posCenter (circle g)
  \/ exists (lmList : list Landmark) (hs : Hands) (c : Landmark),
      hands = lmList :: hs
      /\ nth_error lmList 8 = Some c
      /\ status g = Playing
      /\ DragCircle.posCenter (circle g') = xy c
      /\ DragCircle.grabbed (circle g') = true.
Proof.
  intros H. apply update_ok in H. destruct H as (g1 & Hg & ->).
  destruct (game_logic_frame g1) as (_ & -> & _).
  destruct hands as [| lmList hs]; [injection Hg as <-; left; reflexivity |].
  destruct (status g) eqn:Hs;
    [| rewrite gesture_closed in Hg by (rewrite Hs; discriminate);
       injection Hg as <-; left; reflexivity ..].
  destruct (gesture_inv lmList hs g g1 Hs Hg)
    as (g0 & p & q & e & -> & Hf & Hset & _ & _ & He).
  assert (Hc : circle g0 = circle g) by (rewrite <- Hset; reflexivity).
  destruct e as [c |]; [| left; cbn; rewrite Hc; reflexivity].
  rewrite grab_drag_at_some.
  destruct (over_circle c g0 || DragCircle.grabbed (circle g0));
    [| left; cbn; rewrite Hc; reflexivity].
  right. exists lmList, hs, c. destruct He as [_ H8].
  repeat split; [exact H8 ..].
Qed.

Lemma update_moves_to_fingertip_witness :
  update pinch_wall grabbed_state = Ok lost_state
  /\ (DragCircle.posCenter (circle lost_state)
      = DragCircle.posCenter (circle grabbed_state)
      \/ exists (lmList : list Landmark) (hs : Hands) (c : Landmark),
          pinch_wall = lmList :: hs
          /\ nth_error lmList 8 = Some c
          /\ status grabbed_state = Playing
          /\ DragCircle.posCenter (circle lost_state) = xy c
          /\ DragCircle.grabbed (circle lost_state) = true).
Proof.
  assert (H : update pinch_wall grabbed_state = Ok lost_state)
    by (vm_compute; reflexivity).
  split; [exact H |].
  exact (update_moves_to_fingertip pinch_wall grabbed_state lost_state H).
Defined.

(** X9. While playing, a hand with landmarks 8 and 12 puts the circle at
    its landmark 8 exactly when it is pinching and the circle was grabbed
    already or the cursor is over it; otherwise the circle stays where it
    is. *)
Theorem update_drag (lmList : list Landmark) (hs : Hands) (p8 p12 : Landmark)
        (g : Globals) :
  nth_error lmList 8 = Some p8 ->
  nth_error lmList 12 = Some p12 ->
  status g = Playing ->
  exists g',
    update (lmList :: hs) g = Ok g'
    /\ DragCircle.posCenter (circle g')
       = if pinching p8 p12 && (over_circle p8 g || DragCircle.grabbed (circle g))
         then xy p8
         else DragCircle.posCenter (circle g).
Proof.
  intros H8 H12 Hs. exists (game_logic (grab_release p8 p12 g)).
  unfold update. rewrite (gesture_full lmList hs p8 p12 g H8 H12 Hs).
  split; [reflexivity |].
  destruct (game_logic_frame (grab_release p8 p12 g)) as (_ & -> & _).
  change (grab_release p8 p12 g)
    with (if pinching p8 p12
          then grab_drag_at (Some p8) (set_fingertips g (Some (xy p8, xy p12)))
          else set_grabbed (set_fingertips g (Some (xy p8, xy p12))) false).
  destruct (pinching p8 p12); [| reflexivity].
  rewrite grab_drag_at_some.
  change (over_circle p8 (set_fingertips g (Some (xy p8, xy p12))))
    with (over_circle p8 g).
  change (circle (set_fingertips g (Some (xy p8, xy p12)))) with (circle g).
  destruct (over_circle p8 g || DragCircle.grabbed (circle g)); reflexivity.
Qed.

Lemma update_drag_witness :
  nth_error (hand_at 21 (900, 500)) 8 = Some (900, 500, 0)
  /\ nth_error (hand_at 21 (900, 500)) 12 = Some (900, 500, 0)
  /\ status grabbed_state = Playing
  /\ exists g',
      update [hand_at 21 (900, 500)] grabbed_state = Ok g'
      /\ DragCircle.posCenter (circle g')
         = if pinching (900, 500, 0) (900, 500, 0)
              && (over_circle (900, 500, 0) grabbed_state
                  || DragCircle.grabbed (circle grabbed_state))
           then xy (900, 500, 0)
           else DragCircle.posCenter (circle grabbed_state).
Proof.
  assert (H8 : nth_error (hand_at 21 (900, 500)) 8 = Some (900, 500, 0))
    by reflexivity.
  assert (H12 : nth_error (hand_at 21 (900, 500)) 12 = Some (900, 500, 0))
    by reflexivity.
  assert (Hs : status grabbed_state = Playing) by (vm_compute; reflexivity).
  split; [exact H8 |].
  split; [exact H12 |].
  split; [exact Hs |].
  exact (update_drag (hand_at 21 (900, 500)) [] (900, 500, 0) (900, 500, 0)
                     grabbed_state H8 H12 Hs).
Defined.

(** X10. A frame that starts in status [Playing] ends [Lost] if a wall
    collides with the circle where the frame left it, else [Won] if the
    circle reaches the finish circle, else [Playing]. *)
Theorem update_status (hands : Hands) (g g' : Globals) :
  status g = Playing ->
  update hands g = Ok g' ->
  status g'
  = if collides g' then Lost
    else if sqrt_lt (sq_dist (DragCircle.posCenter (circle g')) (finish_pos g'))
                    (DragCircle.radius (circle g') + finish_radius g')
         then Won
         else Playing.
Proof.
  intros Hs H. apply update_ok in H. destruct H as (g1 & Hg & ->).
  apply status_playing in Hs. destruct Hs as [Hgo Hgw].
  destruct (gesture_frame hands g g1 Hg) as (_ & Hgo1 & Hgw1 & _).
  fold (at_finish (game_logic g1)).
  rewrite collides_game_logic, at_finish_game_logic.
  unfold status.
  rewrite game_logic_game_over, game_logic_game_won, Hgo1, Hgw1, Hgo, Hgw.
  reflexivity.
Qed.

Lemma update_status_witness :
  status grabbed_state = Playing
  /\ update pinch_finish grabbed_state = Ok won_state
  /\ status won_state
     = if collides won_state then Lost
       else if sqrt_lt (sq_dist (DragCircle.posCenter (circle won_state))
                                (finish_pos won_state))
                       (DragCircle.radius (circle won_state) + finish_radius won_state)
            then Won
            else Playing.
Proof.
  assert (Hs : status grabbed_state = Playing) by (vm_compute; reflexivity).
  assert (Hu : update pinch_finish grabbed_state = Ok won_state)
    by (vm_compute; reflexivity).
  split; [exact Hs |].
  split; [exact Hu |].
  exact (update_status pinch_finish grabbed_state won_state Hs Hu).
Defined.

(** ** Invariants of the main loop *)

Section Invariant.

Variable P : Globals -> Prop.

Hypothesis P_update :
  forall (hands : Hands) (g g' : Globals), P g -> update hands g = Ok g' -> P g'.

Hypothesis P_reset_game : forall g : Globals, P g -> P (reset_game g).

Lemma main_loop_invariant (fs : list Frame) (g g' : Globals) :
  P g -> main_loop fs g = Ok g' -> P g'.
Proof.
  revert g. induction fs as [| f fs IH]; intros g Hg H; simpl in H.
  - injection H as <-. exact Hg.
  - unfold bind in H. destruct (update (hands_of f) g) as [g1 | e] eqn:Hu;
      [| discriminate].
    pose proof (P_update _ _ _ Hg Hu) as Hg1.
    destruct (key_of f).
    + injection H as <-. exact Hg1.
    + apply (IH (reset_game g1)); [apply P_reset_game, Hg1 | exact H].
    + apply (IH g1); assumption.
Qed.

End Invariant.

Lemma update_circle_constants (hands : Hands) (g g' : Globals) :
  update hands g = Ok g' ->
  DragCircle.start_pos (circle g') = DragCircle.start_pos (circle g)
  /\ DragCircle.radius (circle g') = DragCircle.radius (circle g).
Proof.
  intros H. apply update_ok in H. destruct H as (g1 & Hg & ->).
  destruct (game_logic_frame g1) as (_ & -> & _).
  destruct (gesture_frame hands g g1 Hg) as (_ & _ & _ & Hsp & Hr).
  split; assumption.
Qed.

(** X11. No run of the main loop changes the circle's start position or
    its radius, whatever the frames and key presses. *)
Theorem main_loop_circle_constants (fs : list Frame) (g g' : Globals) :
  main_loop fs g = Ok g' ->
  DragCircle.start_pos (circle g') = DragCircle.start_pos (circle g)
  /\ DragCircle.radius (circle g') = DragCircle.radius (circle g).
Proof.
  apply (main_loop_invariant
           (fun g' => DragCircle.start_pos (circle g') = DragCircle.start_pos (circle g)
                      /\ DragCircle.radius (circle g') = DragCircle.radius (circle g))).
  - intros hands g1 g2 [Hsp Hr] Hu.
    destruct (update_circle_constants hands g1 g2 Hu) as [-> ->].
    split; assumption.
  - intros g1 H. exact H.
  - split; reflexivity.
Qed.

Lemma main_loop_circle_constants_witness :
  main_loop [mkFrame pinch_start KeyOther; mkFrame pinch_wall KeyOther] init
  = Ok lost_state
  /\ DragCircle.start_pos (circle lost_state) = DragCircle.start_pos (circle init)
  /\ DragCircle.radius (circle lost_state) = DragCircle.radius (circle init).
Proof.
  assert (H : main_loop [mkFrame pinch_start KeyOther; mkFrame pinch_wall KeyOther] init
              = Ok lost_state) by (vm_compute; reflexivity).
  split; [exact H |].
  exact (main_loop_circle_constants _ init lost_state H).
Defined.

Lemma update_pinch_remembered (hands : Hands) (g g' : Globals) :
  pinch_remembered g -> update hands g = Ok g' -> pinch_remembered g'.
Proof.
  intros Hg H. apply update_ok in H. destruct H as (g1 & Hges & ->).
  unfold pinch_remembered.
  destruct (game_logic_frame g1) as (_ & -> & -> & ->).
  destruct hands as [| lmList hs]; [injection Hges as <-; exact Hg |].
  destruct (status g) eqn:Hs;
    [| rewrite gesture_closed in Hges by (rewrite Hs; discriminate);
       injection Hges as <-; exact Hg ..].
  destruct (gesture_inv lmList hs g g1 Hs Hges)
    as (g0 & p & q & e & -> & Hf & _ & _ & _ & He).
  destruct e as [c |]; [| intros Hgr; discriminate Hgr].
  intros _. destruct He as [Hp _].
  destruct (grab_drag_at_frame (Some c) g0) as (_ & _ & _ & -> & _).
  split; [exists p, q; split; assumption |].
  rewrite grab_drag_at_some.
  destruct (over_circle c g0 || DragCircle.grabbed (circle g0)); discriminate.
Qed.

(** X12. In every state that a run reaches, a grabbed circle means that
    the fingertips last read were pinching (less than 30 apart) and that
    [cursor] is bound: the circle is never grabbed on an open hand. *)
Theorem reachable_pinch_remembered (g : Globals) :
  reachable g ->
  DragCircle.grabbed (circle g) = true ->
  (exists p q : Point,
      fingertips g = Some (p, q) /\ sqrt_lt (sq_dist q p) 30 = true)
  /\ cursor g <> None.
Proof.
  intros [fs H].
  apply (main_loop_invariant pinch_remembered) with (fs := fs) (g := init).
  - exact update_pinch_remembered.
  - intros g1 Hg1. exact Hg1.
  - intros Hgr. discriminate Hgr.
  - exact H.
Qed.

Lemma reachable_pinch_remembered_witness :
  reachable lost_state
  /\ DragCircle.grabbed (circle lost_state) = true
  /\ (exists p q : Point,
         fingertips lost_state = Some (p, q) /\ sqrt_lt (sq_dist q p) 30 = true)
  /\ cursor lost_state <> None.
Proof.
  assert (Hr : reachable lost_state).
  { exists [mkFrame pinch_start KeyOther; mkFrame pinch_wall KeyOther].
    vm_compute. reflexivity. }
  assert (Hg : DragCircle.grabbed (circle lost_state) = true)
    by (vm_compute; reflexivity).
  split; [exact Hr |].
  split; [exact Hg |].
  exact (reachable_pinch_remembered lost_state Hr Hg).
Defined.

(** ** Frames that change nothing *)

Lemma game_logic_eq (g : Globals) :
  game_logic g
  = set_game_won (set_game_over g (game_over g || collides g))
                 (game_won g || at_finish g).
Proof.
  unfold game_logic, finish_check. rewrite wall_checks_eq.
  change (at_finish (set_game_over g (game_over g || collides g))) with (at_finish g).
  destruct g as [rl ci fp fr go gw ft cu].
  destruct (at_finish _); cbn; rewrite ?orb_true_r, ?orb_false_r; reflexivity.
Qed.

Lemma game_logic_idem (g : Globals) : game_logic (game_logic g) = game_logic g.
Proof.
  rewrite (game_logic_eq (game_logic g)).
  rewrite collides_game_logic, at_finish_game_logic.
  rewrite game_logic_game_over, game_logic_game_won.
  rewrite game_logic_eq.
  destruct (game_over g), (collides g), (game_won g), (at_finish g); reflexivity.
Qed.

Lemma game_logic_quiet (g : Globals) :
  collides g = false -> at_finish g = false -> game_logic g = g.
Proof.
  intros Hc Hf. rewrite game_logic_eq, Hc, Hf, !orb_false_r.
  destruct g; reflexivity.
Qed.

Lemma game_logic_playing (g : Globals) :
  status (game_logic g) = Playing -> game_logic g = g.
Proof.
  intros H. apply status_playing in H.
  rewrite game_logic_game_over, game_logic_game_won in H.
  destruct H as [Hgo Hgw].
  apply orb_false_elim in Hgo, Hgw.
  apply game_logic_quiet; [apply Hgo | apply Hgw].
Qed.

Lemma update_at_rest (hands : Hands) (g g' : Globals) :
  at_rest g -> update hands g = Ok g' -> at_rest g'.
Proof.
  intros (Hl & Hsp & Hr & _) Hu.
  destruct (update_circle_constants hands g g' Hu) as [Hsp' Hr'].
  pose proof (update_layout hands g g' Hu) as Hl'.
  apply update_ok in Hu. destruct Hu as (g1 & _ & ->).
  repeat split; [congruence .. | apply game_logic_idem].
Qed.

Lemma reset_game_at_rest (g : Globals) : at_rest g -> at_rest (reset_game g).
Proof.
  intros (Hl & Hsp & Hr & _).
  split; [exact Hl |]. split; [exact Hsp |]. split; [exact Hr |].
  unfold layout in Hl. injection Hl as Hrl Hfp Hfr.
  apply game_logic_quiet.
  - unfold collides. cbn [circle rectList reset_game set_circle set_game_won
                          set_game_over DragCircle.posCenter DragCircle.radius
                          DragCircle.set_posCenter].
    rewrite Hrl, Hsp, Hr. vm_compute. reflexivity.
  - unfold at_finish. cbn [circle finish_pos finish_radius reset_game set_circle
                           set_game_won set_game_over DragCircle.posCenter
                           DragCircle.radius DragCircle.set_posCenter].
    rewrite Hfp, Hfr, Hsp, Hr. vm_compute. reflexivity.
Qed.

Lemma reachable_at_rest (g : Globals) : reachable g -> at_rest g.
Proof.
  intros [fs H].
  apply (main_loop_invariant at_rest update_at_rest reset_game_at_rest fs init g);
    [| exact H].
  repeat split; vm_compute; reflexivity.
Qed.

(** X13. In every state that a run reaches, a frame that shows no hand,
    and any frame at all once the status is [Lost] or [Won], raises
    nothing and leaves every variable as it was.  In particular the start
    position touches no wall and is off the finish circle, so the state
    after a reset stays [Playing] until a hand moves the circle. *)
Theorem reachable_idle_frame (hands : Hands) (g : Globals) :
  reachable g ->
  hands = [] \/ status g <> Playing ->
  update hands g = Ok g.
Proof.
  intros Hr Hh. apply reachable_at_rest in Hr. destruct Hr as (_ & _ & _ & Hgl).
  unfold update.
  assert (Hg : gesture hands g = Ok g).
  { destruct Hh as [-> | Hs]; [reflexivity | apply gesture_closed, Hs]. }
  rewrite Hg. cbn [bind]. rewrite Hgl. reflexivity.
Qed.

Lemma reachable_idle_frame_witness :
  reachable (reset_game lost_state)
  /\ ([] = @nil (list Landmark) \/ status (reset_game lost_state) <> Playing)
  /\ update [] (reset_game lost_state) = Ok (reset_game lost_state).
Proof.
  assert (Hr : reachable (reset_game lost_state)).
  { exists [mkFrame pinch_start KeyOther; mkFrame pinch_wall KeyR].
    vm_compute. reflexivity. }
  assert (Hh : [] = @nil (list Landmark) \/ status (reset_game lost_state) <> Playing)
    by (left; reflexivity).
  split; [exact Hr |].
  split; [exact Hh |].
  exact (reachable_idle_frame [] (reset_game lost_state) Hr Hh).
Defined.

(** ** Showing the same frame again *)

Lemma set_fingertips_same (g : Globals) : set_fingertips g (fingertips g) = g.
Proof. destruct g; reflexivity. Qed.

Lemma grab_drag_at_idem (e : option Landmark) (g : Globals) :
  grab_drag_at e (grab_drag_at e g) = grab_drag_at e g.
Proof.
  destruct e as [c |]; [| reflexivity].
  rewrite (grab_drag_at_some c g).
  destruct (over_circle c g || DragCircle.grabbed (circle g)) eqn:Hog.
  - rewrite grab_drag_at_some. cbn [circle set_circle DragCircle.grabbed].
    rewrite orb_true_r. reflexivity.
  - rewrite grab_drag_at_some.
    change (over_circle c (set_cursor g (Some c))) with (over_circle c g).
    change (circle (set_cursor g (Some c))) with (circle g).
    rewrite Hog. reflexivity.
Qed.

(** While playing, the gesture block has nothing to add to its own result. *)
Lemma gesture_idem (hands : Hands) (g g' : Globals) :
  status g = Playing -> gesture hands g = Ok g' -> gesture hands g' = Ok g'.
Proof.
  intros Hs Hg.
  destruct hands as [| lmList hs]; [reflexivity |].
  destruct (gesture_inv lmList hs g g' Hs Hg)
    as (g0 & p & q & e & -> & Hf & _ & Hfull & _ & He).
  destruct (gesture_frame _ _ _ Hg) as (_ & Hgo & Hgw & _).
  apply status_playing in Hs. destruct Hs as [Hgo0 Hgw0].
  destruct (grab_drag_at_frame e g0) as (_ & _ & _ & Hft & _).
  rewrite gesture_run, Hgo, Hgw, Hgo0, Hgw0. cbn [negb andb].
  assert (Hpre : (if (13 <=? length lmList)%nat then
                    p8 <- index lmList 8 ;;
                    p12 <- index lmList 12 ;;
                    Ok (set_fingertips (grab_drag_at e g0) (Some (xy p8, xy p12)))
                  else Ok (grab_drag_at e g0))
                 = Ok (grab_drag_at e g0)).
  { destruct (Nat.leb_spec 13 (length lmList)) as [Hlen | Hlen]; [| reflexivity].
    destruct (Hfull Hlen) as (p8 & p12 & H8 & H12 & -> & ->).
    unfold index. rewrite H8, H12. cbn [bind].
    rewrite <- Hf, <- Hft. rewrite set_fingertips_same. reflexivity. }
  rewrite Hpre. cbn [bind].
  rewrite grab_drag_run, Hft, Hf.
  destruct e as [c |].
  - destruct He as [-> H8]. unfold index. rewrite H8. cbn [bind].
    rewrite grab_drag_at_idem. reflexivity.
  - rewrite He. rewrite grab_drag_at_idem. reflexivity.
Qed.

(** X14. A frame that raised nothing can be shown again, any number of
    times, without any effect: the same hands on the state the frame
    left raise nothing and leave every variable as it is. *)
Theorem update_idempotent (hands : Hands) (g g' : Globals) (n : nat) :
  update hands g = Ok g' ->
  updates (repeat hands n) g' = Ok g'.
Proof.
  intros H.
  assert (Hstep : update hands g' = Ok g').
  { apply update_ok in H. destruct H as (g1 & Hg & ->).
    unfold update.
    destruct (status (game_logic g1)) eqn:Hs1.
    - pose proof (game_logic_playing g1 Hs1) as Hq. rewrite Hq in *.
      assert (Hg1 : gesture hands g1 = Ok g1).
      { destruct (status g) eqn:Hs.
        - apply (gesture_idem hands g g1 Hs Hg).
        - rewrite gesture_closed in Hg by (rewrite Hs; discriminate).
          injection Hg as <-. rewrite Hs1 in Hs. discriminate.
        - rewrite gesture_closed in Hg by (rewrite Hs; discriminate).
          injection Hg as <-. rewrite Hs1 in Hs. discriminate. }
      rewrite Hg1. cbn [bind]. rewrite Hq. reflexivity.
    - rewrite gesture_closed by (rewrite Hs1; discriminate). cbn [bind].
      rewrite game_logic_idem. reflexivity.
    - rewrite gesture_closed by (rewrite Hs1; discriminate). cbn [bind].
      rewrite game_logic_idem. reflexivity. }
  induction n as [| n IH]; simpl; [reflexivity |].
  rewrite Hstep. exact IH.
Qed.

Lemma update_idempotent_witness :
  update pinch_wall grabbed_state = Ok lost_state
  /\ updates (repeat pinch_wall 3) lost_state = Ok lost_state.
Proof.
  assert (H : update pinch_wall grabbed_state = Ok lost_state)
    by (vm_compute; reflexivity).
  split; [exact H |].
  exact (update_idempotent pinch_wall grabbed_state lost_state 3 H).
Defined.

(** ** Losing, as seen on the screen *)

Lemma init_walls_well_sized : Forall well_sized (rectList init).
Proof.
  repeat constructor; vm_compute; intros E; discriminate E.
Qed.

Lemma reachable_walls_well_sized (g : Globals) (rect : DragRect.t) :
  reachable g -> In rect (rectList g) -> well_sized rect.
Proof.
  intros Hr Hin. apply reachable_at_rest in Hr. destruct Hr as (Hl & _).
  unfold layout in Hl. injection Hl as Hrl _ _. rewrite Hrl in Hin.
  exact (proj1 (Forall_forall _ _) init_walls_well_sized rect Hin).
Qed.

(** X15. In a run of the game, a frame that starts in status [Playing]
    ends in status [Lost] exactly when the open disc of the player circle,
    where the frame left it, meets one of the walls as they are drawn
    (border included). *)
Theorem lost_iff_disc_meets_drawn_wall (hands : Hands) (g g' : Globals) :
  reachable g ->
  status g = Playing ->
  update hands g = Ok g' ->
  (status g' = Lost
   <-> exists (rect : DragRect.t) (q : R * R),
       In rect (rectList g')
       /\ in_wall rect q
       /\ (distance_to q (DragCircle.posCenter (circle g'))
           < IZR (DragCircle.radius (circle g')))%R).
Proof.
  intros Hr Hs Hu.
  pose proof (update_layout hands g g' Hu) as Hl.
  unfold layout in Hl. injection Hl as Hrl _ _.
  apply update_ok in Hu. destruct Hu as (g1 & Hg & ->).
  apply status_playing in Hs. destruct Hs as [Hgo Hgw].
  destruct (gesture_frame hands g g1 Hg) as (_ & Hgo1 & _).
  assert (Hlost : status (game_logic g1) = Lost <-> collides (game_logic g1) = true).
  { unfold status. rewrite collides_game_logic, game_logic_game_over, Hgo1, Hgo.
    cbn [orb]. destruct (collides g1); [tauto |].
    destruct (game_won (game_logic g1)); split; discriminate. }
  rewrite Hlost, collides_existsb_iff.
  split.
  - intros (rect & Hin & Hc). rewrite Hrl in Hin.
    pose proof (reachable_walls_well_sized g rect Hr Hin) as Hw.
    rewrite check_collision_sq_dist, sqrt_lt_distance in Hc.
    destruct (closest_on_wall rect (DragCircle.posCenter (circle (game_logic g1))) Hw)
      as [[H1 H2] [H3 H4]].
    exists rect, (IZR (fst (DragRect.closest rect
                              (DragCircle.posCenter (circle (game_logic g1))))),
                  IZR (snd (DragRect.closest rect
                              (DragCircle.posCenter (circle (game_logic g1)))))).
    split; [rewrite Hrl; exact Hin |].
    split; [| rewrite <- distance_distance_to; exact Hc].
    unfold in_wall; cbn [fst snd]. repeat split; apply IZR_le; assumption.
  - intros (rect & q & Hin & Hq & Hd).
    exists rect. split; [exact Hin |].
    rewrite check_collision_sq_dist, sqrt_lt_distance.
    pose proof (closest_nearest rect (DragCircle.posCenter (circle (game_logic g1)))
                                q Hq).
    lra.
Qed.

Lemma lost_iff_disc_meets_drawn_wall_witness :
  reachable grabbed_state
  /\ status grabbed_state = Playing
  /\ update pinch_wall grabbed_state = Ok lost_state
  /\ (status lost_state = Lost
      <-> exists (rect : DragRect.t) (q : R * R),
          In rect (rectList lost_state)
          /\ in_wall rect q
          /\ (distance_to q (DragCircle.posCenter (circle lost_state))
              < IZR (DragCircle.radius (circle lost_state)))%R).
Proof.
  assert (Hr : reachable grabbed_state).
  { exists [mkFrame pinch_start KeyOther]. vm_compute. reflexivity. }
  assert (Hs : status grabbed_state = Playing) by (vm_compute; reflexivity).
  assert (Hu : update pinch_wall grabbed_state = Ok lost_state)
    by (vm_compute; reflexivity).
  split; [exact Hr |].
  split; [exact Hs |].
  split; [exact Hu |].
  exact (lost_iff_disc_meets_drawn_wall pinch_wall grabbed_state lost_state Hr Hs Hu).
Defined.
